(** * SMM assistant-log analytics: a shallow embedding of the dashboard

    The TypeScript module [services/dataProcessing] turns the rows of a CSV
    export into [SmmLogEntry] records ([parseCSV]) and derives the
    dashboard views from them ([getDailyTrend], [getHourlyStats],
    [classifyIntents], ...); [services/geminiService] asks a language
    model for a report on a sample of the records; [App] holds the state of
    the page and fills it on an upload; [components/AnalysisCharts] draws
    the views.  This file embeds these functions and proves the properties
    that the specification states about them, and further properties that
    the code shows.

    Conventions of the embedding.
    - A JavaScript string is the list of its UTF-16 code units ([jsstring]);
      [includes], [split], [trim] and the default sort order all work on
      code units.
    - A plain object used as a dictionary is the list of its own properties
      in creation order, read through the prototype chain ([get]) and listed
      in the order of [Object.keys] ([ownKeys]).
    - A [Set] is a duplicate-free list in insertion order.
    - [Array.prototype.sort] is stable; over a total preorder the stable
      sorted arrangement is unique, and [sort] of MathComp computes it.
    - Numbers that only count are [nat]; quotients are binary64 floats.
    - A function that can throw returns an [outcome].
    - What lies outside the program is a parameter: the rows that Papa
      Parse delivers, the key of the environment, the answer of the
      language model.  The state of the page is passed explicitly.

    Part I is the program, Part II the vocabulary in which the properties
    are stated, Part III the properties. *)

From Stdlib Require Import ZArith NArith String Ascii Floats Uint63 Lia.
From HB Require Import structures.
From mathcomp Require Import boot.

Set Implicit Arguments.
Unset Strict Implicit.
Unset Printing Implicit Defensive.

(* ===================================================================== *)
(** * Part I: the model                                                   *)
(* ===================================================================== *)

(** ** Strings *)

Definition jsstring := seq N.

(** Source literals are written as UTF-8 text and decoded to code units. *)
Definition low6 (a : ascii) : N := N.modulo (N_of_ascii a) 64.

Fixpoint utf16 (s : string) : jsstring :=
  match s with
  | EmptyString => [::]
  | String a s1 =>
    let b0 := N_of_ascii a in
    if N.ltb b0 128 then b0 :: utf16 s1
    else if N.ltb b0 224 then
      match s1 with
      | String b s2 =>
        N.add (N.mul (N.modulo b0 32) 64) (low6 b) :: utf16 s2
      | EmptyString => [::]
      end
    else if N.ltb b0 240 then
      match s1 with
      | String b (String c s3) =>
        N.add (N.add (N.mul (N.modulo b0 16) 4096) (N.mul (low6 b) 64))
              (low6 c) :: utf16 s3
      | _ => [::]
      end
    else
      match s1 with
      | String b (String c (String d s4)) =>
        let cp := N.add (N.add (N.add (N.mul (N.modulo b0 8) 262144)
                                      (N.mul (low6 b) 4096))
                               (N.mul (low6 c) 64)) (low6 d) in
        [:: N.add 55296 (N.div (N.sub cp 65536) 1024),
            N.add 56320 (N.modulo (N.sub cp 65536) 1024)
          & utf16 s4]
      | _ => [::]
      end
  end.

Definition js (s : string) : jsstring := utf16 s.

(** [WhiteSpace] and [LineTerminator] code units, as stripped by
    [String.prototype.trim] and skipped by [parseInt]. *)
Definition isWhiteSpace (c : N) : bool :=
  (c \in [:: 9%num; 10%num; 11%num; 12%num; 13%num; 32%num; 160%num; 5760%num; 8232%num;
             8233%num; 8239%num; 8287%num; 12288%num; 65279%num])
  || (N.leb 8192 c && N.leb c 8202).

Fixpoint trimStart (s : jsstring) : jsstring :=
  if s is c :: s' then if isWhiteSpace c then trimStart s' else s else [::].

Definition trimEnd (s : jsstring) : jsstring := rev (trimStart (rev s)).

Definition trim (s : jsstring) : jsstring := trimEnd (trimStart s).

(** [s.startsWith(k)] and [s.includes(k)]. *)
Fixpoint startsWith (s k : jsstring) : bool :=
  match k, s with
  | [::], _ => true
  | a :: k', b :: s' => (a == b) && startsWith s' k'
  | _ :: _, [::] => false
  end.

Fixpoint includes (s k : jsstring) : bool :=
  startsWith s k || (if s is _ :: s' then includes s' k else false).

(** [s.split(sep)] for a separator of one code unit: never empty. *)
Fixpoint split (sep : N) (s : jsstring) : seq jsstring :=
  if s is c :: s' then
    if c == sep then [::] :: split sep s'
    else let r := split sep s' in (c :: head [::] r) :: behead r
  else [:: [::]].

Definition SPACE : N := 32%num.
Definition COLON : N := 58%num.

(** Element [i] of an array: [None] is [undefined]. *)
Fixpoint at_ (T : Type) (s : seq T) (i : nat) : option T :=
  match s, i with
  | [::], _ => None
  | x :: _, 0 => Some x
  | _ :: s', i'.+1 => at_ s' i'
  end.

(** ** Records *)

(** [userName], [nickname], [email] and the feedback fields are optional
    in the interface; [parseCSV] always sets them, and the one place that
    reads them, [join], turns an absent one into the empty string. *)
Record SmmLogEntry := mkEntry {
  questionId : jsstring;
  content : jsstring;
  time : jsstring;
  source : jsstring;
  userId : jsstring;
  company : jsstring;
  userName : jsstring;
  nickname : jsstring;
  email : jsstring;
  feedbackStatus : jsstring;
  feedbackContent : jsstring
}.

(** [keyof SmmLogEntry], for the values of [HEADER_MAPPING]. *)
Inductive key :=
| KquestionId | Kcontent | Ktime | Ksource | KuserId | Kcompany
| KuserName | Knickname | Kemail | KfeedbackStatus | KfeedbackContent.

Definition getField (k : key) (e : SmmLogEntry) : jsstring :=
  match k with
  | KquestionId => questionId e | Kcontent => content e | Ktime => time e
  | Ksource => source e | KuserId => userId e | Kcompany => company e
  | KuserName => userName e | Knickname => nickname e | Kemail => email e
  | KfeedbackStatus => feedbackStatus e
  | KfeedbackContent => feedbackContent e
  end.

Definition setField (k : key) (v : jsstring) (e : SmmLogEntry) : SmmLogEntry :=
  let: mkEntry q c t s u co un ni em fs fc := e in
  match k with
  | KquestionId => mkEntry v c t s u co un ni em fs fc
  | Kcontent => mkEntry q v t s u co un ni em fs fc
  | Ktime => mkEntry q c v s u co un ni em fs fc
  | Ksource => mkEntry q c t v u co un ni em fs fc
  | KuserId => mkEntry q c t s v co un ni em fs fc
  | Kcompany => mkEntry q c t s u v un ni em fs fc
  | KuserName => mkEntry q c t s u co v ni em fs fc
  | Knickname => mkEntry q c t s u co un v em fs fc
  | Kemail => mkEntry q c t s u co un ni v fs fc
  | KfeedbackStatus => mkEntry q c t s u co un ni em v fc
  | KfeedbackContent => mkEntry q c t s u co un ni em fs v
  end.

(** ** Ingestion: [parseCSV] *)

Definition HEADER_MAPPING : seq (jsstring * key) :=
  [:: (js "问题ID", KquestionId);
      (js "问题内容", Kcontent);
      (js "提问时间", Ktime);
      (js "来源", Ksource);
      (js "用户ID", KuserId);
      (js "公司名", Kcompany);
      (js "用户姓名", KuserName);
      (js "用户昵称", Knickname);
      (js "邮箱", Kemail);
      (js "反馈状态", KfeedbackStatus);
      (js "反馈内容", KfeedbackContent)].

(** A row of [results.data]: with [header: true] Papa Parse yields one
    object per line, from header text to cell text. *)
Definition rawRow := seq (jsstring * jsstring).

(** [row[zhKey]]: [None] is [undefined]. *)
Fixpoint rowGet (row : rawRow) (zhKey : jsstring) : option jsstring :=
  if row is (h, v) :: row' then
    if h == zhKey then Some v else rowGet row' zhKey
  else None.

(** [val ? val.trim() : ''] *)
Definition cellText (val : option jsstring) : jsstring :=
  match val with
  | Some (c :: v) => trim (c :: v)
  | Some [::] => [::]
  | None => [::]
  end.

(** [newRow = {}]: the eleven properties are all assigned by the loop
    below, so the placeholder texts never reach the result. *)
Definition emptyRow : SmmLogEntry :=
  mkEntry [::] [::] [::] [::] [::] [::] [::] [::] [::] [::] [::].

Definition normalizeRow (row : rawRow) : SmmLogEntry :=
  foldl (fun newRow zk => setField zk.2 (cellText (rowGet row zk.1)) newRow)
        emptyRow HEADER_MAPPING.

Arguments normalizeRow : simpl never.

(** [item => item.content && item.time] *)
Definition hasRequired (item : SmmLogEntry) : bool :=
  (content item != [::]) && (time item != [::]).

Definition parseCSV (data : seq rawRow) : seq SmmLogEntry :=
  [seq item <- [seq normalizeRow row | row <- data] | hasRequired item].

(** ** Numbers *)

Definition isDigit (c : N) : bool := N.leb 48 c && N.leb c 57.

Definition digitsValue (ds : jsstring) : N :=
  foldl (fun acc c => N.add (N.mul acc 10) (N.sub c 48)) 0%num ds.

Fixpoint digitPrefix (s : jsstring) : jsstring :=
  if s is c :: s' then if isDigit c then c :: digitPrefix s' else [::]
  else [::].

(** [parseInt(s, 10)]: leading white space, an optional sign, then the
    longest run of decimal digits; [None] is [NaN].  The result is the
    exact integer; the Number is its rounding to binary64, and the test
    [hour >= 0 && hour < 24] answers the same on both ([-0] is [0]). *)
Definition parseInt10 (s : jsstring) : option Z :=
  let s1 := trimStart s in
  let: (negative, s2) :=
    match s1 with
    | c :: r => if c == 45%num then (true, r)
                else if c == 43%num then (false, r) else (false, s1)
    | [::] => (false, s1)
    end in
  let z := digitPrefix s2 in
  if z is [::] then None
  else Some (if negative then Z.opp (Z.of_N (digitsValue z))
             else Z.of_N (digitsValue z)).

(** Decimal text of a count, as in [`${hour}`]. *)
Fixpoint decimalDigits (fuel n : nat) : jsstring :=
  if fuel is f.+1 then
    if n < 10 then [:: N.of_nat (48 + n)]
    else rcons (decimalDigits f (n %/ 10)) (N.of_nat (48 + n %% 10))
  else [::].

Definition decimal (n : nat) : jsstring := decimalDigits n.+1 n.

(** A count converted for a division. *)
Definition numberOfNat (n : nat) : float :=
  PrimFloat.of_uint63 (Uint63.of_Z (Z.of_nat n)).

(** ** Values of counter properties *)

(** What a property used as a counter holds at run time: a count, [NaN],
    or the text that [+ 1] makes of an inherited member of
    [Object.prototype] ([Str k n] is the text of member [k] followed by
    [n] characters [1]). *)
Inductive jsvalue :=
| Num (n : nat)
| NaN
| Str (member : jsstring) (ones : nat).

Definition NamedValue : Type := jsstring * jsvalue.
Definition KeywordFrequency : Type := jsstring * jsvalue.

(** [v > 0] *)
Definition positive (v : jsvalue) : bool :=
  if v is Num n then 0 < n else false.

(** [(a, b) => b[1] - a[1]] read as "a may stand before b": the
    difference is negative or zero; a difference that is [NaN] counts as
    zero in [SortCompare].  On counts this is a total preorder.  When a
    value is not a count the comparison is not consistent and the engine
    is free in the order; the model then shows the order of one stable
    merge sort. *)
Definition byValueDesc (a b : jsstring * jsvalue) : bool :=
  match a.2, b.2 with
  | Num x, Num y => y <= x
  | _, _ => true
  end.

(** ** Plain objects used as dictionaries *)

(** The members that an object literal inherits from [Object.prototype]:
    eleven methods and the accessor [__proto__]. *)
Definition protoMethods : seq jsstring :=
  [:: js "constructor"; js "hasOwnProperty"; js "isPrototypeOf";
      js "propertyIsEnumerable"; js "toLocaleString"; js "toString";
      js "valueOf"; js "__defineGetter__"; js "__defineSetter__";
      js "__lookupGetter__"; js "__lookupSetter__"].

Definition PROTO : jsstring := js "__proto__".

Definition inherited (k : jsstring) : bool :=
  (k \in protoMethods) || (k == PROTO).

(** The text of an inherited member, as V8 prints it (the white space
    inside the braces is left to the engine). *)
Definition memberText (k : jsstring) : jsstring :=
  if k == PROTO then js "[object Object]"
  else js "function "
       ++ (if k == js "constructor" then js "Object" else k)
       ++ js "() { [native code] }".

Definition render (v : jsvalue) : jsstring :=
  match v with
  | Num n => decimal n
  | NaN => js "NaN"
  | Str k n => memberText k ++ nseq n 49%num
  end.

(** An array index: a canonical decimal numeral below [2^32 - 1]. *)
Definition arrayIndex (k : jsstring) : option N :=
  if k is c :: r then
    if [&& all isDigit k, (c != 48%num) || (r == [::])
         & N.ltb (digitsValue k) 4294967295]
    then Some (digitsValue k) else None
  else None.

(** The order in which the names of own properties are listed. *)
Definition byIndex (a b : jsstring) : bool :=
  N.leb (odflt 0%num (arrayIndex a)) (odflt 0%num (arrayIndex b)).

Definition keyOrder (created : seq jsstring) : seq jsstring :=
  sort byIndex [seq k <- created | arrayIndex k]
  ++ [seq k <- created | ~~ arrayIndex k].

Section PlainObject.

Variable V : Type.

(** The own properties, in order of creation. *)
Definition object : Type := seq (jsstring * V).

Fixpoint own (o : object) (k : jsstring) : option V :=
  if o is (k', v) :: o' then if k' == k then Some v else own o' k else None.

(** The result of reading [o[k]]. *)
Inductive fetched :=
| Own (v : V)
| Method (k : jsstring)
| Prototype
| Undefined.

Definition get (o : object) (k : jsstring) : fetched :=
  match own o k with
  | Some v => Own v
  | None => if k \in protoMethods then Method k
            else if k == PROTO then Prototype else Undefined
  end.

(** Create the own property [k], or replace its value where it stands. *)
Fixpoint define (o : object) (k : jsstring) (v : V) : object :=
  if o is (k', v') :: o' then
    if k' == k then (k', v) :: o' else (k', v') :: define o' k v
  else [:: (k, v)].

(** [o[k] = v] for a value [v] that is not an object: the inherited setter
    of [__proto__] ignores it. *)
Definition assign (o : object) (k : jsstring) (v : V) : object :=
  if k == PROTO then o else define o k v.

(** [if (!o[k]) o[k] = init], for an [init] that is a fresh object: what
    is read is an object or a function, or it is [undefined]. *)
Definition ensure (o : object) (k : jsstring) (init : V) : object :=
  if get o k is Undefined then define o k init else o.

(** [Object.keys(o)]: array indices in ascending numeric order, then the
    other names in order of creation. *)
Definition names (o : object) : seq jsstring := [seq kv.1 | kv <- o].

Definition ownKeys (o : object) : seq jsstring := keyOrder (names o).

(** [Object.entries(o)] *)
Definition entries (o : object) : seq (jsstring * V) :=
  pmap (fun k => omap (pair k) (own o k)) (ownKeys o).

End PlainObject.

Arguments Method {V} k.
Arguments Prototype {V}.
Arguments Undefined {V}.

(** [counts[k] = (counts[k] || 0) + 1] *)
Definition bump (counts : object jsvalue) (k : jsstring) : object jsvalue :=
  match get counts k with
  | Own (Num n) => define counts k (Num n.+1)
  | Own NaN => define counts k (Num 1)
  | Own (Str m n) => define counts k (Str m n.+1)
  | Method m => define counts k (Str m 1)
  | Prototype => counts
  | Undefined => define counts k (Num 1)
  end.

(** [counts[k]++] *)
Definition increment (counts : object jsvalue) (k : jsstring)
  : object jsvalue :=
  match get counts k with
  | Own (Num n) => define counts k (Num n.+1)
  | Own NaN | Own (Str _ _) | Method _ | Undefined => define counts k NaN
  | Prototype => counts
  end.

(** A [Set] of strings: [add] and the result of [new Set(array)]. *)
Definition setAdd (s : seq jsstring) (x : jsstring) : seq jsstring :=
  if x \in s then s else rcons s x.

Definition setOf (xs : seq jsstring) : seq jsstring := foldl setAdd [::] xs.

(** The default order of [sort()]: code units, left to right. *)
Fixpoint strLeq (a b : jsstring) : bool :=
  match a, b with
  | [::], _ => true
  | _ :: _, [::] => false
  | x :: a', y :: b' => N.ltb x y || ((x == y) && strLeq a' b')
  end.

(** A call either returns or throws a [TypeError]. *)
Inductive outcome (A : Type) :=
| Returns (a : A)
| TypeError.

Arguments Returns {A} a.
Arguments TypeError {A}.

(** ** The Internal-User Rule: [isInternalUser] *)

(** [toLowerCase] on the letters A to Z.  The two keywords below are made
    of [s], [m] and caseless Han characters, and no other code point
    lower-cases to one of these, so the test agrees with the full
    Unicode mapping. *)
Definition lowerUnit (c : N) : N :=
  if N.leb 65 c && N.leb c 90 then N.add c 32 else c.

Definition toLowerCase (s : jsstring) : jsstring := map lowerUnit s.

(** [parts.join(sep)] *)
Fixpoint join (sep : jsstring) (parts : seq jsstring) : jsstring :=
  match parts with
  | [::] => [::]
  | [:: p] => p
  | p :: rest => p ++ sep ++ join sep rest
  end.

Definition isInternalUser (entry : SmmLogEntry) : bool :=
  let keywords := [:: js "smm"; js "上海有色网"] in
  let textToCheck :=
    toLowerCase (join (js " ") [:: company entry; userName entry;
                                   nickname entry; email entry]) in
  has (fun k => includes textToCheck k) keywords.

(** ** Time analysis *)

Record DailyTrend := mkTrend { date : jsstring; queries : nat; dau : nat }.

(** The value of [stats[date]]. *)
Record dayStats := mkDay { dayQueries : nat; users : seq jsstring }.

(** [entry.time.split(' ')[0]] *)
Definition datePart (entry : SmmLogEntry) : jsstring :=
  head [::] (split SPACE (time entry)).

Definition trendStep (acc : outcome (object dayStats)) (entry : SmmLogEntry)
  : outcome (object dayStats) :=
  if acc is Returns stats then
    if datePart entry is [::] then Returns stats
    else
      let stats1 := ensure stats (datePart entry) (mkDay 0 [::]) in
      match get stats1 (datePart entry) with
      | Own st =>
        let st1 := mkDay (dayQueries st).+1 (users st) in
        Returns (define stats1 (datePart entry)
                   (if userId entry is [::] then st1
                    else mkDay (dayQueries st1)
                               (setAdd (users st1) (userId entry))))
      | Method _ | Prototype =>
        (* [queries += 1] writes on the built-in object, which no function
           of this module reads back; [users] is [undefined] there *)
        if userId entry is [::] then Returns stats1 else TypeError
      | Undefined => TypeError
      end
  else acc.

Definition getDailyTrend (data : seq SmmLogEntry) : outcome (seq DailyTrend) :=
  if foldl trendStep (Returns [::]) data is Returns stats then
    Returns (pmap (fun date =>
                     omap (fun st => mkTrend date (dayQueries st)
                                             (size (users st)))
                          (own stats date))
                  (sort strLeq (ownKeys stats)))
  else TypeError.

Record HourlyStats := mkHourly { hour : jsstring; count_ : nat }.

(** The slot that one record increments, if any:
    [timePart = entry.time.split(' ')[1]], tested by [if (timePart)], then
    [hour = parseInt(timePart.split(':')[0], 10)], tested by
    [!isNaN(hour) && hour >= 0 && hour < 24]. *)
Definition hourOf (entry : SmmLogEntry) : option nat :=
  match at_ (split SPACE (time entry)) 1 with
  | Some (c :: r) =>
    let timePart := c :: r in
    match parseInt10 (head [::] (split COLON timePart)) with
    | Some h => if Z.leb 0 h && Z.ltb h 24 then Some (Z.to_nat h) else None
    | None => None
    end
  | _ => None
  end.

Definition getHourlyStats (data : seq SmmLogEntry) : seq HourlyStats :=
  let counts :=
    foldl (fun counts entry =>
             if hourOf entry is Some h
             then set_nth 0 counts h (nth 0 counts h).+1 else counts)
          (nseq 24 0) data in
  [seq mkHourly (decimal ch.2 ++ js ":00") ch.1
  | ch <- zip counts (iota 0 (size counts))].

(** ** Content analysis *)

(** The two shapes of pattern in the intent table: an alternation of
    literal texts under the flag [i], and [/.*/]. *)
Inductive regex :=
| Alternatives (alts : seq jsstring)
| AnyText.

(** Case folding of the flag [i] on the letters a to z; the patterns hold
    only such letters and caseless Han characters. *)
Definition upperUnit (c : N) : N :=
  if N.leb 97 c && N.leb c 122 then N.sub c 32 else c.

Definition test (re : regex) (s : jsstring) : bool :=
  match re with
  | Alternatives alts =>
    has (fun a => includes (map upperUnit s) (map upperUnit a)) alts
  | AnyText => true
  end.

Definition OTHER : jsstring := js "其他".

Definition intents : seq (jsstring * regex) :=
  [:: (js "闲聊/问候",
       Alternatives [:: js "你好"; js "早上好"; js "晚上好"; js "谢谢";
                        js "感谢"; js "再见"; js "hello"; js "hi"; js "哈哈";
                        js "牛"; js "厉害"; js "智障"; js "笨蛋"; js "测试";
                        js "谁"; js "帮助"]);
      (js "行情/价格",
       Alternatives [:: js "价格"; js "多少钱"; js "报价"; js "升贴水";
                        js "价"; js "结算"; js "多少"; js "钱"; js "花费";
                        js "行情"]);
      (js "趋势/预测",
       Alternatives [:: js "走势"; js "涨"; js "跌"; js "预测"; js "后市";
                        js "看法"; js "分析"; js "展望"; js "趋势";
                        js "动向"]);
      (js "数据/库存",
       Alternatives [:: js "库存"; js "仓单"; js "产量"; js "产能";
                        js "进出口"; js "表"; js "数据"; js "图"; js "排产";
                        js "开工率"; js "销量"; js "平衡表"]);
      (js "知识/百科",
       Alternatives [:: js "是什么"; js "定义"; js "标准"; js "工艺";
                        js "介绍"; js "牌号"; js "区别"; js "含义";
                        js "科普"]);
      (OTHER, AnyText)].

(** The [for ... of] loop over [Object.entries(intents)] with its
    [break]: the first label, other than the catch-all, whose pattern
    matches.  No label is an array index, so the entries come in the
    order of the literal. *)
Fixpoint firstMatch (table : seq (jsstring * regex)) (text : jsstring)
  : option jsstring :=
  if table is (key, re) :: table' then
    if (key != OTHER) && test re text then Some key
    else firstMatch table' text
  else None.

Definition classifyIntents (data : seq SmmLogEntry) : seq NamedValue :=
  let counts0 : object jsvalue :=
    [:: (js "闲聊/问候", Num 0); (js "行情/价格", Num 0);
        (js "趋势/预测", Num 0); (js "数据/库存", Num 0);
        (js "知识/百科", Num 0); (OTHER, Num 0)] in
  let counts :=
    foldl (fun counts entry =>
             if firstMatch intents (content entry) is Some key
             then increment counts key else increment counts OTHER)
          counts0 data in
  entries counts.

Definition metals : seq jsstring :=
  [:: js "铜"; js "铝"; js "锌"; js "铅"; js "镍"; js "锡";
      js "锂"; js "钴"; js "不锈钢"; js "金"; js "银"; js "稀土";
      js "钨"; js "钼"; js "硅"; js "镁"; js "锰"; js "钛";
      js "铬"; js "铟"; js "镓"; js "锗"; js "铼"; js "钒";
      js "锆"; js "铪"; js "钽"; js "铌"; js "铂"; js "钯";
      js "铑"; js "铱"; js "钌"; js "锇"; js "碳酸锂"; js "氢氧化锂";
      js "磷酸铁锂"; js "六氟磷酸锂"; js "电解液"; js "三元"; js "光伏";
      js "多晶硅"; js "硅片"; js "电池"; js "组件"; js "EVA"; js "POE";
      js "废钢"; js "废铜"; js "废铝"; js "石油焦"; js "阳极"; js "黑粉";
      js "碳酸酯"; js "氧化铝"].

Definition keywords : seq jsstring :=
  [:: js "价格"; js "库存"; js "走势"; js "涨"; js "跌"; js "预测";
      js "结算"; js "加工费"; js "升贴水"; js "现货"; js "期货"; js "产量";
      js "消费"; js "废"; js "再生"; js "月度"; js "年度"; js "成本";
      js "利润"; js "供需"; js "产能"; js "开工率"; js "报价"; js "均价";
      js "指数"; js "进口"; js "出口"; js "政策"; js "宏观"; js "美联储";
      js "降息"; js "汇率"; js "行情"; js "分析"; js "数据"; js "报表";
      js "日报"; js "周报"; js "多少钱"; js "LME"; js "SHFE"; js "长江";
      js "SMM"; js "排产"; js "销量"].

(** The two loops that both functions below run over their vocabulary:
    every term starts at [0]; every record adds one to each term that its
    content includes. *)
Definition tally (terms : seq jsstring) (data : seq SmmLogEntry)
  : object jsvalue :=
  let counts0 := foldl (fun counts m => assign counts m (Num 0)) [::] terms in
  foldl (fun counts entry =>
           foldl (fun counts m =>
                    if includes (content entry) m then increment counts m
                    else counts)
                 counts terms)
        counts0 data.

Definition getMetalDistribution (data : seq SmmLogEntry) : seq NamedValue :=
  sort byValueDesc [seq nv <- entries (tally metals data) | positive nv.2].

Definition getTopKeywords (data : seq SmmLogEntry) : seq KeywordFrequency :=
  let counts := tally keywords data in
  [seq k <- sort byValueDesc
              (pmap (fun keyword => omap (pair keyword) (own counts keyword))
                    (ownKeys counts))
  | positive k.2].

(** ** User analysis *)

Definition INTERNAL_LABEL : jsstring := js "上海有色网 (SMM)".

Definition getTopCompanies (data : seq SmmLogEntry) : seq NamedValue :=
  let counts :=
    foldl (fun counts entry =>
             if isInternalUser entry then bump counts INTERNAL_LABEL
             else
               let company_ :=
                 if company entry is [::] then [::]
                 else trim (company entry) in
               if company_ is [::] then counts else bump counts company_)
          [::] data in
  take 10 (sort byValueDesc (entries counts)).

Definition getUserTypeDistribution (data : seq SmmLogEntry) : seq NamedValue :=
  let: (internal, external, unknown) :=
    foldl (fun acc entry =>
             let: (internal, external, unknown) := acc in
             if isInternalUser entry then (internal.+1, external, unknown)
             else if (company entry != [::])
                     && (trim (company entry) != [::])
             then (internal, external.+1, unknown)
             else (internal, external, unknown.+1))
          (0, 0, 0) data in
  [seq item <- [:: (js "内部员工", Num internal);
                   (js "外部客户", Num external);
                   (js "未知", Num unknown)]
  | positive item.2].

Definition UNKNOWN : jsstring := js "Unknown".

Definition getSourceDistribution (data : seq SmmLogEntry) : seq NamedValue :=
  let counts :=
    foldl (fun counts entry =>
             let src := if source entry is [::] then UNKNOWN
                        else source entry in
             bump counts src)
          [::] data in
  pmap (fun name => omap (pair name) (own counts name)) (ownKeys counts).

(** ** Summary *)

Definition retentionStep (acc : outcome (object (seq jsstring)))
                         (e : SmmLogEntry)
  : outcome (object (seq jsstring)) :=
  if acc is Returns userDays then
    let userDays1 := ensure userDays (datePart e) [::] in
    match get userDays1 (datePart e) with
    | Own s => Returns (define userDays1 (datePart e) (setAdd s (userId e)))
    | Method _ | Prototype | Undefined => TypeError
    end
  else acc.

(** The loop over consecutive dates, on the user sets in date order. *)
Fixpoint retentionLoop (sets : seq (seq jsstring))
                       (retentionSum : float) (comparisons : nat)
  : float * nat :=
  if sets is today :: rest then
    if rest is tomorrow :: _ then
      let retained := count (fun uid => uid \in tomorrow) today in
      if 0 < size today then
        retentionLoop rest
          (PrimFloat.add retentionSum
             (PrimFloat.div (numberOfNat retained) (numberOfNat (size today))))
          comparisons.+1
      else retentionLoop rest retentionSum comparisons
    else (retentionSum, comparisons)
  else (retentionSum, comparisons).

Definition calculateRetention (data : seq SmmLogEntry) : outcome float :=
  if foldl retentionStep (Returns [::]) data is Returns userDays then
    let dates := sort strLeq (ownKeys userDays) in
    if size dates < 2 then Returns 0%float
    else
      let: (retentionSum, comparisons) :=
        retentionLoop (pmap (own userDays) dates) 0%float 0 in
      Returns (if 0 < comparisons
               then PrimFloat.mul
                      (PrimFloat.div retentionSum (numberOfNat comparisons))
                      100%float
               else 0%float)
  else TypeError.

Record AnalysisSummary := mkSummary {
  totalQueries : nat;
  uniqueUsers : nat;
  avgQueriesPerUser : float;
  retentionRate : float;
  topSource : jsstring;
  busiestDay : jsstring
}.

Definition NA : jsstring := js "N/A".

Definition getSummaryStats (data : seq SmmLogEntry) : outcome AnalysisSummary :=
  let totalQueries := size data in
  let uniqueUsers := size (setOf [seq userId d | d <- data]) in
  let avgQueriesPerUser :=
    if 0 < uniqueUsers
    then PrimFloat.div (numberOfNat totalQueries) (numberOfNat uniqueUsers)
    else 0%float in
  let sources := getSourceDistribution data in
  let topSource :=
    if sort byValueDesc sources is a :: _
    then (if a.1 is [::] then NA else a.1) else NA in
  if getDailyTrend data is Returns trends then
    let busiestDay :=
      if sort (fun a b => queries b <= queries a) trends is a :: _
      then (if date a is [::] then NA else date a) else NA in
    if calculateRetention data is Returns retentionRate then
      Returns (mkSummary totalQueries uniqueUsers avgQueriesPerUser
                         retentionRate topSource busiestDay)
    else TypeError
  else TypeError.

(** ** The insight service: [services/geminiService] *)

Definition QUOTE : N := 34%num.
Definition LF : N := 10%num.

(** [`- [${l.company || 'User'}] asked: "${l.content}"`] *)
Definition sampleLine (l : SmmLogEntry) : jsstring :=
  js "- [" ++ (if company l is [::] then js "User" else company l)
  ++ js "] asked: " ++ QUOTE :: content l ++ [:: QUOTE].

(** The sample of the logs that goes into the prompt. *)
Definition interestingLogs (logs : seq SmmLogEntry) : jsstring :=
  join [:: LF]
       [seq sampleLine l
       | l <- take 150 [seq l <- logs | 5 < size (content l)]].

(** The two parts of the template literal around [${interestingLogs}]. *)
Definition promptHead : jsstring :=
  js "
    You are a Senior Data Analyst for Shanghai Nonferrous Network (SMM). 
    Analyze the following user query logs from our AI Assistant.

    **Data Sample:**
    ".

Definition promptTail : jsstring :=
  js "

    **Task:**
    Provide a professional, concise, and visually appealing analysis of the user behavior.
    
    **IMPORTANT:**
    **ALL OUTPUT MUST BE IN SIMPLIFIED CHINESE (中文).**

    **Analysis Dimensions:**
    1.  **🔍 用户画像 (User Persona)**: Who are they? (e.g., Traders, Analysts) and what defines them?
    2.  **🔥 关注热点 (Hot Topics)**: What specific metals or data points are most requested?
    3.  **💡 策略建议 (Strategic Insights)**: 2-3 specific recommendations for product or content improvement.

    **Output Format:**
    Return **Raw HTML** string. Do not use Markdown. Do not wrap in ```html tags.
    Use the following Tailwind CSS classes for styling:
    - Headers: `<h3 class="
  ++ QUOTE :: js "text-lg font-bold text-slate-800 mt-6 mb-3 flex items-center gap-2"
  ++ QUOTE :: js ">` (Add an emoji at the start of the title)
    - Lists: `<ul class="
  ++ QUOTE :: js "list-disc pl-5 space-y-2 mb-4 text-slate-600"
  ++ QUOTE :: js ">`
    - List Items: `<li>`
    - Paragraphs: `<p class="
  ++ QUOTE :: js "mb-4 text-slate-600 leading-relaxed"
  ++ QUOTE :: js ">`
    - Keywords/Emphasis: `<strong class="
  ++ QUOTE :: js "text-indigo-600 font-semibold"
  ++ QUOTE :: js ">`
    - Wrapper: Do not include a main wrapper div, just the content.
  ".

Definition prompt (logs : seq SmmLogEntry) : jsstring :=
  promptHead ++ interestingLogs logs ++ promptTail.

(** [s.replace(/pat/g, '')] for a pattern [pat] that is a literal text, not
    empty: the matches are found from left to right and do not overlap;
    [skip] is what is left to drop of the match being removed. *)
Fixpoint removeAll (pat : jsstring) (skip : nat) (s : jsstring) : jsstring :=
  if s is c :: s' then
    if skip is k.+1 then removeAll pat k s'
    else if startsWith s pat then removeAll pat (size pat).-1 s'
    else c :: removeAll pat 0 s'
  else [::].

Definition FENCE : jsstring := js "```".
Definition FENCE_HTML : jsstring := js "```html".

(** [text.replace(/```html/g, '').replace(/```/g, '')] *)
Definition cleanup (text : jsstring) : jsstring :=
  removeAll FENCE 0 (removeAll FENCE_HTML 0 text).

(** What [ai.models.generateContent] comes to: a response, whose [text]
    may be [undefined], or a rejection. *)
Inductive reply :=
| Response (text : option jsstring)
| Rejected.

Definition KEY_MISSING : jsstring :=
  js "<p class='text-red-500'>API Key missing. Please configure environment variables.</p>".

Definition SERVICE_ERROR : jsstring :=
  js "<p class='text-red-500'>生成 AI 分析时出错，请检查控制台。</p>".

Section Service.

(** [process.env.API_KEY], and the client that [new GoogleGenAI] makes for
    a key: what its [generateContent] answers for a model and a text.
    What goes to the console is left out. *)
Variable API_KEY : option jsstring.
Variable GoogleGenAI : jsstring -> jsstring -> jsstring -> reply.

Definition getGeminiClient : option (jsstring -> jsstring -> reply) :=
  if API_KEY is Some (c :: apiKey) then Some (GoogleGenAI (c :: apiKey))
  else None.

Definition analyzeUserIntent (logs : seq SmmLogEntry) : jsstring :=
  if getGeminiClient is Some generateContent then
    match generateContent (js "gemini-2.5-flash") (prompt logs) with
    | Response text => cleanup (odflt [::] text)
    | Rejected => SERVICE_ERROR
    end
  else KEY_MISSING.

End Service.

(** ** The charts: [components/AnalysisCharts] *)

Definition COLORS : seq jsstring :=
  [:: js "#0ea5e9"; js "#22c55e"; js "#eab308"; js "#f97316"; js "#ef4444";
      js "#8b5cf6"; js "#ec4899"; js "#64748b"].

(** The [fill] of the cells of the intent pie, one for each entry:
    [COLORS[index % COLORS.length]]. *)
Definition intentCells (intentData : seq NamedValue) : seq (option jsstring) :=
  [seq at_ COLORS (index %% size COLORS) | index <- iota 0 (size intentData)].

(** The entries of the keyword cloud: [keywordData.slice(0, 25)]. *)
Definition keywordCloud (keywordData : seq KeywordFrequency)
  : seq KeywordFrequency :=
  take 25 keywordData.

(** ** The application: [App] *)

Module App.

(** The state of the component; [summary] starts as [null]. *)
Record state := mkState {
  data : seq SmmLogEntry;
  summary : option AnalysisSummary;
  dailyTrend : seq DailyTrend;
  hourlyStats : seq HourlyStats;
  sourceData : seq NamedValue;
  intentData : seq NamedValue;
  metalData : seq NamedValue;
  companyData : seq NamedValue;
  userTypeData : seq NamedValue;
  keywordData : seq KeywordFrequency;
  aiAnalysis : jsstring;
  loadingAi : bool
}.

Definition initial : state :=
  mkState [::] None [::] [::] [::] [::] [::] [::] [::] [::] [::] false.

Definition setData v (st : state) : state :=
  let: mkState _ su dt hs so it me co ut kw ai lo := st in
  mkState v su dt hs so it me co ut kw ai lo.
Definition setSummary v (st : state) : state :=
  let: mkState da _ dt hs so it me co ut kw ai lo := st in
  mkState da v dt hs so it me co ut kw ai lo.
Definition setDailyTrend v (st : state) : state :=
  let: mkState da su _ hs so it me co ut kw ai lo := st in
  mkState da su v hs so it me co ut kw ai lo.
Definition setHourlyStats v (st : state) : state :=
  let: mkState da su dt _ so it me co ut kw ai lo := st in
  mkState da su dt v so it me co ut kw ai lo.
Definition setSourceData v (st : state) : state :=
  let: mkState da su dt hs _ it me co ut kw ai lo := st in
  mkState da su dt hs v it me co ut kw ai lo.
Definition setIntentData v (st : state) : state :=
  let: mkState da su dt hs so _ me co ut kw ai lo := st in
  mkState da su dt hs so v me co ut kw ai lo.
Definition setMetalData v (st : state) : state :=
  let: mkState da su dt hs so it _ co ut kw ai lo := st in
  mkState da su dt hs so it v co ut kw ai lo.
Definition setCompanyData v (st : state) : state :=
  let: mkState da su dt hs so it me _ ut kw ai lo := st in
  mkState da su dt hs so it me v ut kw ai lo.
Definition setUserTypeData v (st : state) : state :=
  let: mkState da su dt hs so it me co _ kw ai lo := st in
  mkState da su dt hs so it me co v kw ai lo.
Definition setKeywordData v (st : state) : state :=
  let: mkState da su dt hs so it me co ut _ ai lo := st in
  mkState da su dt hs so it me co ut v ai lo.
Definition setAiAnalysis v (st : state) : state :=
  let: mkState da su dt hs so it me co ut kw _ lo := st in
  mkState da su dt hs so it me co ut kw v lo.
Definition setLoadingAi v (st : state) : state :=
  let: mkState da su dt hs so it me co ut kw ai _ := st in
  mkState da su dt hs so it me co ut kw ai v.

(** What the change event brings: no file, a file on which Papa Parse
    reports an error, or the rows of [results.data]. *)
Inductive upload :=
| NoFile
| Unreadable
| Rows (rows : seq rawRow).

Definition PARSE_ALERT : jsstring := js "解析 CSV 文件失败".

Section Handlers.

Variable API_KEY : option jsstring.
Variable GoogleGenAI : jsstring -> jsstring -> jsstring -> reply.

(** The state once the analysis has settled.  [analyzeUserIntent] catches
    the failures of the service itself, so the [catch] here is not
    entered. *)
Definition triggerAiAnalysis (dataset : seq SmmLogEntry) (st : state)
  : state :=
  if dataset is [::] then st
  else
    let st1 := setAiAnalysis [::] (setLoadingAi true st) in
    let result := analyzeUserIntent API_KEY GoogleGenAI dataset in
    setLoadingAi false (setAiAnalysis result st1).

(** One change event, run to its end: the state that results and the
    alerts that were shown.  A setter that has run before an analytics
    function throws keeps its effect. *)
Definition handleFileUpload (file : upload) (st : state)
  : state * seq jsstring :=
  match file with
  | NoFile => (st, [::])
  | Unreadable => (st, [:: PARSE_ALERT])
  | Rows rows =>
    let parsedData := parseCSV rows in
    let st1 := setData parsedData st in
    match getSummaryStats parsedData with
    | TypeError => (st1, [:: PARSE_ALERT])
    | Returns s =>
      let st2 := setSummary (Some s) st1 in
      match getDailyTrend parsedData with
      | TypeError => (st2, [:: PARSE_ALERT])
      | Returns trend =>
        let st3 := setDailyTrend trend st2 in
        let st4 := setHourlyStats (getHourlyStats parsedData) st3 in
        let st5 := setSourceData (getSourceDistribution parsedData) st4 in
        let st6 := setIntentData (classifyIntents parsedData) st5 in
        let st7 := setMetalData (getMetalDistribution parsedData) st6 in
        let st8 := setCompanyData (getTopCompanies parsedData) st7 in
        let st9 := setUserTypeData (getUserTypeDistribution parsedData) st8 in
        let st10 := setKeywordData (getTopKeywords parsedData) st9 in
        (triggerAiAnalysis parsedData st10, [::])
      end
    end
  end.

End Handlers.

End App.

(* ===================================================================== *)
(** * Part II: the vocabulary of the statements                           *)
(* ===================================================================== *)

(** ** Equality on the types of the model *)

Definition entry_code (e : SmmLogEntry) :=
  (questionId e, content e, time e, source e, userId e, company e,
   userName e, nickname e, email e, feedbackStatus e, feedbackContent e).

Definition entry_decode
    (t : jsstring * jsstring * jsstring * jsstring * jsstring * jsstring
         * jsstring * jsstring * jsstring * jsstring * jsstring)
  : SmmLogEntry :=
  let: (q, c, t, s, u, co, un, ni, em, fs, fc) := t in
  mkEntry q c t s u co un ni em fs fc.

Definition entry_codeK : cancel entry_code entry_decode :=
  fun e => match e return entry_decode (entry_code e) = e with
           | mkEntry _ _ _ _ _ _ _ _ _ _ _ => erefl
           end.

HB.instance Definition _ := Equality.copy SmmLogEntry (can_type entry_codeK).

Definition key_code (k : key) : nat :=
  match k with
  | KquestionId => 0 | Kcontent => 1 | Ktime => 2 | Ksource => 3
  | KuserId => 4 | Kcompany => 5 | KuserName => 6 | Knickname => 7
  | Kemail => 8 | KfeedbackStatus => 9 | KfeedbackContent => 10
  end.

Definition key_decode (n : nat) : key :=
  match n with
  | 0 => KquestionId | 1 => Kcontent | 2 => Ktime | 3 => Ksource
  | 4 => KuserId | 5 => Kcompany | 6 => KuserName | 7 => Knickname
  | 8 => Kemail | 9 => KfeedbackStatus | _ => KfeedbackContent
  end.

Definition key_codeK : cancel key_code key_decode :=
  fun k => match k return key_decode (key_code k) = k with
           | KquestionId => erefl | Kcontent => erefl | Ktime => erefl
           | Ksource => erefl | KuserId => erefl | Kcompany => erefl
           | KuserName => erefl | Knickname => erefl | Kemail => erefl
           | KfeedbackStatus => erefl | KfeedbackContent => erefl
           end.

HB.instance Definition _ := Equality.copy key (can_type key_codeK).

Definition jsvalue_code (v : jsvalue) : nat + (unit + jsstring * nat) :=
  match v with
  | Num n => inl n
  | NaN => inr (inl tt)
  | Str m n => inr (inr (m, n))
  end.

Definition jsvalue_decode (c : nat + (unit + jsstring * nat)) : jsvalue :=
  match c with
  | inl n => Num n
  | inr (inl _) => NaN
  | inr (inr (m, n)) => Str m n
  end.

Definition jsvalue_codeK : cancel jsvalue_code jsvalue_decode :=
  fun v => match v return jsvalue_decode (jsvalue_code v) = v with
           | Num _ => erefl | NaN => erefl | Str _ _ => erefl
           end.

HB.instance Definition _ := Equality.copy jsvalue (can_type jsvalue_codeK).

(** ** Strings *)

(** A string is [clean] when it does not start with white space. *)
Definition clean (s : jsstring) : bool :=
  if s is c :: _ then ~~ isWhiteSpace c else true.

(** ** Ingestion *)

Definition goodRow : rawRow :=
  [:: (js "问题内容", js " 你好 "); (js "提问时间", js "2024-01-01 09:15:00");
      (js "用户ID", js "u1")].

Definition blankRow : rawRow :=
  [:: (js "问题内容", js "   "); (js "提问时间", js "2024-01-01 10:00:00");
      (js "用户ID", js "u2")].

(** ** Plain objects *)

(** An object whose names are [ks] and whose values are given by [g]. *)
Definition table (V : Type) (ks : seq jsstring) (g : jsstring -> V)
  : object V :=
  [seq (k, g k) | k <- ks].

(** ** Intents *)

Definition intentLabels : seq jsstring := [seq lr.1 | lr <- intents].

(** The bucket of one record. *)
Definition intentOf (entry : SmmLogEntry) : jsstring :=
  odflt OTHER (firstMatch intents (content entry)).

(** ** User types *)

(** The count carried by a value of a distribution. *)
Definition countOf (v : jsvalue) : nat := if v is Num n then n else 0.

Definition valueSum (nvs : seq NamedValue) : nat :=
  sumn [seq countOf nv.2 | nv <- nvs].

Definition isExternal (e : SmmLogEntry) : bool :=
  ~~ isInternalUser e && (trim (company e) != [::]).

Definition isUnknown (e : SmmLogEntry) : bool :=
  ~~ isInternalUser e && (trim (company e) == [::]).

(** ** Hours *)

(** The text before the first [c], or the whole text. *)
Fixpoint beforeFirst (c : N) (s : jsstring) : jsstring :=
  if s is x :: s' then if x == c then [::] else x :: beforeFirst c s'
  else [::].

(** The text after the first [c], if there is one. *)
Fixpoint afterFirst (c : N) (s : jsstring) : option jsstring :=
  if s is x :: s' then if x == c then Some s' else afterFirst c s' else None.

(** The hour read from a time part: the decimal integer, in the sense of
    [parseInt], that stands before its first colon, when it lies between
    0 and 23. *)
Definition hourFrom (timePart : jsstring) : option nat :=
  if timePart is [::] then None
  else if parseInt10 (beforeFirst COLON timePart) is Some z
       then if Z.leb 0 z && Z.ltb z 24 then Some (Z.to_nat z) else None
       else None.

(** The hour as the specification words it: read from everything that
    follows the first space. *)
Definition hourAfterFirstSpace (e : SmmLogEntry) : option nat :=
  if afterFirst SPACE (time e) is Some part then
    if parseInt10 (beforeFirst COLON part) is Some z
    then if Z.leb 0 z && Z.ltb z 24 then Some (Z.to_nat z) else None
    else None
  else None.

Definition doubleSpaced : SmmLogEntry :=
  mkEntry [::] (js "铜价") (js "2024-01-01  10:00:00") [::] (js "u1")
          [::] [::] [::] [::] [::] [::].

(** ** Values and sorted tables *)

(** The entries whose value is a count. *)
Definition counted (nv : jsstring * jsvalue) : bool :=
  if nv.2 is Num _ then true else false.

(** [ranked ks a b]: [a] may stand before [b] in a list sorted by
    descending count in which equal counts keep the order of [ks]. *)
Definition ranked (ks : seq jsstring) (a b : jsstring * jsvalue) : bool :=
  (countOf b.2 < countOf a.2)
  || ((countOf a.2 == countOf b.2) && (index a.1 ks <= index b.1 ks)).

(** ** Vocabularies *)

(** A vocabulary can serve as the names of a counter object: no term is
    repeated, inherited from [Object.prototype], or an array index. *)
Definition vocabulary (terms : seq jsstring) : bool :=
  uniq terms && all (fun t => ~~ inherited t && ~~ arrayIndex t) terms.

(** The number of records whose content includes a term. *)
Definition occurrences (data : seq SmmLogEntry) (term : jsstring) : nat :=
  count (fun e => includes (content e) term) data.

(** The terms that occur, with their counts, in the order of the table. *)
Definition occurring (terms : seq jsstring) (data : seq SmmLogEntry)
  : seq (jsstring * jsvalue) :=
  [seq (t, Num (occurrences data t)) | t <- terms & 0 < occurrences data t].

(** ** Counting into buckets named by the data *)

(** Counting into buckets named by the data: [lab] gives the bucket of a
    record, if it has one. *)
Definition grouped (lab : SmmLogEntry -> option jsstring)
                   (data : seq SmmLogEntry) : object jsvalue :=
  foldl (fun counts e => if lab e is Some k then bump counts k else counts)
        [::] data.

(** No bucket bears the name of an inherited member. *)
Definition safe (lab : SmmLogEntry -> option jsstring)
                (data : seq SmmLogEntry) : bool :=
  all (fun e => if lab e is Some k then ~~ inherited k else true) data.

(** The buckets in the order in which they are first seen. *)
Definition seen (lab : SmmLogEntry -> option jsstring)
                (data : seq SmmLogEntry) : seq jsstring :=
  setOf (pmap lab data).

Definition members (lab : SmmLogEntry -> option jsstring)
                   (data : seq SmmLogEntry) (k : jsstring) : nat :=
  count (fun e => lab e == Some k) data.

(** ** Sources *)

(** [entry.source || 'Unknown'] *)
Definition sourceLabel (e : SmmLogEntry) : jsstring :=
  if source e is [::] then UNKNOWN else source e.

Definition fromSource (s : jsstring) : SmmLogEntry :=
  mkEntry (js "q1") (js "铜价") (js "2024-01-01 09:15:00") s (js "u1")
          [::] [::] [::] [::] [::] [::].

(** ** Companies *)

(** The bucket of a record in the company board. *)
Definition bucket (e : SmmLogEntry) : option jsstring :=
  if isInternalUser e then Some INTERNAL_LABEL
  else if trim (company e) is [::] then None else Some (trim (company e)).

Definition fromCompany (c : jsstring) : SmmLogEntry :=
  mkEntry (js "q1") (js "铜价") (js "2024-01-01 09:15:00") (js "APP")
          (js "u1") c [::] [::] [::] [::] [::].

Definition twoCompanies : seq SmmLogEntry :=
  [:: fromCompany (js "阿里"); fromCompany (js "360")].

(** ** Grouping records under names taken from the data *)

(** The records of one group, in their order. *)
Definition group (lab : SmmLogEntry -> option jsstring)
                 (data : seq SmmLogEntry) (k : jsstring) : seq SmmLogEntry :=
  [seq e <- data | lab e == Some k].

(** The object that a grouping loop has built after [data]: every group
    starts from [init] and takes its records in with [upd]. *)
Definition folded (V : Type) (lab : SmmLogEntry -> option jsstring)
                  (init : V) (upd : V -> SmmLogEntry -> V)
                  (data : seq SmmLogEntry) : object V :=
  table (seen lab data) (fun k => foldl upd init (group lab data k)).

(** ** Daily trend *)

(** No record has a date part that names an inherited member. *)
Definition datesSafe (data : seq SmmLogEntry) : bool :=
  all (fun e => ~~ inherited (datePart e)) data.

Definition dateLabel (e : SmmLogEntry) : option jsstring :=
  if datePart e is [::] then None else Some (datePart e).

Definition dayUpdate (st : dayStats) (e : SmmLogEntry) : dayStats :=
  mkDay (dayQueries st).+1
        (if userId e is [::] then users st else setAdd (users st) (userId e)).

(** The dates of a collection, in ascending order. *)
Definition datesOf (data : seq SmmLogEntry) : seq jsstring :=
  sort strLeq (undup [seq datePart e | e <- data & datePart e != [::]]).

(** The entry of one date. *)
Definition trendOf (data : seq SmmLogEntry) (d : jsstring) : DailyTrend :=
  mkTrend d (count (fun e => datePart e == d) data)
          (size (undup [seq userId e
                       | e <- data & (datePart e == d)
                                     && (userId e != [::])])).

Definition logged (t u : jsstring) : SmmLogEntry :=
  mkEntry (js "q1") (js "铜价") t (js "APP") u [::] [::] [::] [::] [::] [::].

(** ** Retention *)

Definition dayUsers (data : seq SmmLogEntry) (d : jsstring) : seq jsstring :=
  setOf [seq userId e | e <- data & datePart e == d].

(** The dates of the retention estimate, in ascending order: every date
    part counts, also an empty one. *)
Definition retentionDates (data : seq SmmLogEntry) : seq jsstring :=
  sort strLeq (undup [seq datePart e | e <- data]).

(** For each pair of consecutive user sets whose first is not empty, the
    share of the first that is also in the second. *)
Definition ratios (sets : seq (seq jsstring)) : seq float :=
  [seq PrimFloat.div (numberOfNat (count (fun uid => uid \in p.2) p.1))
                     (numberOfNat (size p.1))
  | p <- zip sets (behead sets) & 0 < size p.1].

(** A hundred times the mean of the ratios, summed from left to right. *)
Definition meanPercent (rs : seq float) : float :=
  if rs is [::] then 0%float
  else PrimFloat.mul
         (PrimFloat.div (foldl PrimFloat.add 0%float rs) (numberOfNat (size rs)))
         100%float.

Definition twoDays : seq SmmLogEntry :=
  [:: logged (js "2024-01-01 09:00:00") (js "a");
      logged (js "2024-01-01 10:00:00") (js "b");
      logged (js "2024-01-02 09:00:00") (js "b");
      logged (js "2024-01-02 11:00:00") (js "c")].

(** ** Summary *)

(** [totalQueries / uniqueUsers], guarded. *)
Definition average (totalQueries uniqueUsers : nat) : float :=
  if 0 < uniqueUsers
  then PrimFloat.div (numberOfNat totalQueries) (numberOfNat uniqueUsers)
  else 0%float.

(** ** Sample records *)

Definition scenario1 : SmmLogEntry :=
  mkEntry (js "q1") (js "你好") (js "2024-01-01 09:15:00") [::] (js "u1")
          [::] [::] [::] [::] [::] [::].

Definition board : seq SmmLogEntry :=
  [:: fromCompany (js "阿里"); fromCompany (js "SMM 上海"); fromCompany (js "360");
      fromCompany (js " 阿里 "); fromCompany [::]].

(** ** Internal users *)

(** A field names the operator of the service. *)
Definition mentionsSMM (field : jsstring) : bool :=
  has (fun k => includes (toLowerCase field) k) [:: js "smm"; js "上海有色网"].

(** ** Rows *)

(** The row that carries a record under the headers of the export. *)
Definition rowOf (e : SmmLogEntry) : rawRow :=
  [seq (zk.1, getField zk.2 e) | zk <- HEADER_MAPPING].

Definition headers : seq jsstring := [seq zk.1 | zk <- HEADER_MAPPING].

Definition fields : seq key := [seq zk.2 | zk <- HEADER_MAPPING].

(** Every field of a record is free of white space at both ends. *)
Definition trimmed (e : SmmLogEntry) : bool :=
  all (fun k => trim (getField k e) == getField k e) fields.

(** ** Calls that throw *)

Definition thrown (A : Type) (r : outcome A) : bool :=
  if r is TypeError then true else false.

(** The records whose date part is not the name of an inherited member. *)
Definition plainDates (data : seq SmmLogEntry) : seq SmmLogEntry :=
  [seq e <- data | ~~ inherited (datePart e)].

(** A record on which the daily trend fails: its date part names an
    inherited member and it has a user. *)
Definition breaksTrend (e : SmmLogEntry) : bool :=
  inherited (datePart e) && (userId e != [::]).

(** ** Counters under every name *)

(** What the counter named [k] holds after [n] increments: a count, or,
    when [k] names an inherited method, the text of the method followed by
    [n] characters [1]. *)
Definition held (k : jsstring) (n : nat) : jsvalue :=
  if k \in protoMethods then Str k n else Num n.

(** The buckets that become properties, in the order in which they are
    first seen: all but [__proto__]. *)
Definition listed (lab : SmmLogEntry -> option jsstring)
                  (data : seq SmmLogEntry) : seq jsstring :=
  setOf [seq k <- pmap lab data | k != PROTO].

(** ** Sample records for the content analysis *)

Definition asking (c : jsstring) : SmmLogEntry :=
  mkEntry (js "q1") c (js "2024-01-01 09:15:00") (js "APP") (js "u1")
          [::] [::] [::] [::] [::] [::].

(** ** The sample of the insight service *)

(** What the sample keeps of the logs: the company and the content of the
    first 150 records whose content is longer than five code units. *)
Definition sampled (logs : seq SmmLogEntry) : seq (jsstring * jsstring) :=
  [seq (company l, content l)
  | l <- take 150 [seq l <- logs | 5 < size (content l)]].

Definition sampleOne : seq SmmLogEntry :=
  [:: asking (js "今日铜价是多少"); asking (js "hi")].

Definition sampleTwo : seq SmmLogEntry :=
  [:: mkEntry (js "q7") (js "今日铜价是多少") (js "2024-02-02 10:00:00")
              (js "WEB") (js "u9") [::] (js "张三") [::] [::] (js "赞")
              (js "不错")].

(** A service that wraps its answer in a fence. *)
Definition fencing (apiKey model contents : jsstring) : reply :=
  Response (Some (js "```html<p>ok</p>```")).

(** ** States of the application *)

(** A dashboard that shows an earlier analysis. *)
Definition analysed : App.state :=
  App.setAiAnalysis (js "<p>old</p>") App.initial.

(** ** Timestamps of the usual shape *)

Definition digits : seq N :=
  [:: 48%num; 49%num; 50%num; 51%num; 52%num; 53%num; 54%num; 55%num;
      56%num; 57%num].

(** The hour of a timestamp with two digits and a colon right after the
    first space, when the digits make a number below 24. *)
Definition stampHour (t : jsstring) : option nat :=
  if afterFirst SPACE t is Some (h1 :: h2 :: c :: _) then
    let h := (N.to_nat h1 - 48) * 10 + (N.to_nat h2 - 48) in
    if [&& isDigit h1, isDigit h2, c == COLON & h < 24] then Some h else None
  else None.

(* ===================================================================== *)
(** * Part III: properties                                                *)
(* ===================================================================== *)

(** ** Strings *)

Example utf16_cu : js "铜a" = [:: 38108%num; 97%num].
Proof. by []. Qed.

Example split_date : split SPACE (js "2024-01-01 09:15:00")
                     = [:: js "2024-01-01"; js "09:15:00"].
Proof. by []. Qed.

Lemma trimStart_suffix s : exists p, s = p ++ trimStart s.
Proof.
elim: s => [|c s [p Hp]] /=; first by exists [::].
case: (isWhiteSpace c); last by exists [::].
by exists (c :: p); rewrite /= -Hp.
Qed.

Lemma trimStart_clean s : clean (trimStart s).
Proof. by elim: s => [|c s IH] //=; case E: (isWhiteSpace c) => //=; rewrite E. Qed.

Lemma trimStart_fix s : clean s -> trimStart s = s.
Proof. by case: s => [|c s] //= /negbTE ->. Qed.

Lemma clean_rev_suffix p u t : rev t = p ++ u -> clean t -> clean (rev u).
Proof.
move=> /(congr1 rev); rewrite revK rev_cat => ->.
by case: (rev u).
Qed.

Lemma trim_clean s : clean (trim s) /\ clean (rev (trim s)).
Proof.
rewrite /trim /trimEnd revK; split; last exact: trimStart_clean.
have [p Hp] := trimStart_suffix (rev (trimStart s)).
exact: clean_rev_suffix Hp (trimStart_clean s).
Qed.

Lemma trim_fix s : clean s -> clean (rev s) -> trim s = s.
Proof.
by move=> Hs Hr; rewrite /trim /trimEnd (trimStart_fix Hs) (trimStart_fix Hr) revK.
Qed.

Lemma trim_idem s : trim (trim s) = trim s.
Proof. by have [H1 H2] := trim_clean s; apply: trim_fix. Qed.

Lemma cellTextE val : cellText val = trim (odflt [::] val).
Proof. by case: val => [[|c v]|]. Qed.

Lemma normalizeRowE row :
  normalizeRow row =
  mkEntry (cellText (rowGet row (js "问题ID")))
          (cellText (rowGet row (js "问题内容")))
          (cellText (rowGet row (js "提问时间")))
          (cellText (rowGet row (js "来源")))
          (cellText (rowGet row (js "用户ID")))
          (cellText (rowGet row (js "公司名")))
          (cellText (rowGet row (js "用户姓名")))
          (cellText (rowGet row (js "用户昵称")))
          (cellText (rowGet row (js "邮箱")))
          (cellText (rowGet row (js "反馈状态")))
          (cellText (rowGet row (js "反馈内容"))).
Proof. by []. Qed.

Lemma all_always (T : Type) (p : pred T) (s : seq T) :
  (forall x, p x) -> all p s.
Proof. by move=> Hp; elim: s => [|x s IH] //=; rewrite Hp. Qed.

(** ** Ingestion *)

Example parseCSV_scenario4 :
  parseCSV [:: goodRow; blankRow] =
  [:: mkEntry [::] (js "你好") (js "2024-01-01 09:15:00") [::] (js "u1")
              [::] [::] [::] [::] [::] [::]].
Proof. by []. Qed.

(** C1.  Every record that [parseCSV] returns has a non-empty [content]
    and a non-empty [time], both already trimmed; a row whose content or
    time cell is empty after trimming is dropped, so that the collection is
    the one obtained without that row; and a header that the row lacks
    gives the empty string in the corresponding field. *)
Theorem parseCSV_required_fields (data : seq rawRow) :
  [/\ all (fun e => [&& content e != [::], time e != [::],
                        trim (content e) == content e
                      & trim (time e) == time e]) (parseCSV data),
      forall before row after,
        data = before ++ row :: after ->
        (trim (odflt [::] (rowGet row (js "问题内容"))) == [::])
        || (trim (odflt [::] (rowGet row (js "提问时间"))) == [::]) ->
        parseCSV data = parseCSV (before ++ after)
    & forall row zhKey field,
        (zhKey, field) \in HEADER_MAPPING -> rowGet row zhKey = None ->
        getField field (normalizeRow row) = [::]].
Proof.
split.
- rewrite /parseCSV all_filter all_map; apply: all_always => row.
  rewrite /= normalizeRowE /hasRequired /= !cellTextE !trim_idem !eqxx.
  by apply/implyP => /andP [-> ->].
- move=> before row after -> Hdrop.
  rewrite /parseCSV !map_cat !filter_cat /=.
  suff -> : hasRequired (normalizeRow row) = false by [].
  rewrite /hasRequired normalizeRowE /= !cellTextE.
  by case/orP: Hdrop => /eqP ->; rewrite ?andbF.
- move=> row zhKey field Hin Hnone; rewrite normalizeRowE.
  move: Hin; rewrite /HEADER_MAPPING !inE.
  by do 10?[case/orP]; move=> /eqP [Hk ->] /=; rewrite -Hk Hnone.
Qed.

Lemma parseCSV_required_fields_witness :
  parseCSV [:: goodRow; blankRow] = parseCSV [:: goodRow].
Proof.
have [_ Hdrop _] := parseCSV_required_fields [:: goodRow; blankRow].
exact: (Hdrop [:: goodRow] blankRow [::] erefl erefl).
Defined.

(** ** Plain objects *)

Section ObjectFacts.

Variable V : Type.
Implicit Types (o : object V) (k : jsstring) (v : V) (g : jsstring -> V).

Lemma own_define o k v k' :
  own (define o k v) k' = if k == k' then Some v else own o k'.
Proof.
elim: o => [|[k1 v1] o IH] //=.
case E: (k1 == k) => /=; first by rewrite (eqP E); case: (k == k').
rewrite IH; case E': (k1 == k') => //.
by rewrite -(eqP E') eq_sym E.
Qed.

Lemma own_names o k : isSome (own o k) = (k \in names o).
Proof.
elim: o => [|[k1 v1] o IH] //=.
by rewrite in_cons [k == k1]eq_sym; case: (k1 == k).
Qed.

Lemma names_define o k v :
  names (define o k v) = if k \in names o then names o else rcons (names o) k.
Proof.
elim: o => [|[k1 v1] o IH] //=.
rewrite in_cons [k == k1]eq_sym; case E: (k1 == k) => //=.
by rewrite IH; case: (k \in names o).
Qed.

Lemma get_own o k x : own o k = Some x -> get o k = Own x.
Proof. by rewrite /get => ->. Qed.

Lemma get_fresh o k :
  k \notin names o -> ~~ inherited k -> get o k = Undefined.
Proof.
rewrite -own_names /inherited negb_or /get.
by case: (own o k) => // _ /andP [/negbTE -> /negbTE ->].
Qed.

Lemma names_table ks g : names (table ks g) = ks.
Proof. by rewrite /names /table -map_comp map_id. Qed.

Lemma own_table ks g k :
  own (table ks g) k = if k \in ks then Some (g k) else None.
Proof.
elim: ks => [|k1 ks IH] //=.
rewrite in_cons [k == k1]eq_sym; case E: (k1 == k) => //=.
by rewrite (eqP E).
Qed.

Lemma define_table ks g k v :
  uniq ks -> k \in ks ->
  define (table ks g) k v = table ks (fun x => if x == k then v else g x).
Proof.
elim: ks => [|k1 ks IH] //= /andP [Hk1 Hu].
rewrite in_cons [k == k1]eq_sym; case E: (k1 == k) => /=.
  move=> _; congr cons.
  apply/eq_in_map => x Hx; case Ex: (x == k) => //.
  by move: Hk1; rewrite (eqP E) -(eqP Ex) Hx.
by move=> Hin; rewrite IH.
Qed.

Lemma define_table_fresh ks g k v :
  k \notin ks -> define (table ks g) k v = rcons (table ks g) (k, v).
Proof.
elim: ks => [|k1 ks IH] //=.
by rewrite in_cons negb_or [k == k1]eq_sym => /andP [/negbTE -> /IH ->].
Qed.

Lemma eq_table ks g1 g2 :
  {in ks, g1 =1 g2} -> table ks g1 = table ks g2.
Proof. by move=> H; apply/eq_in_map => x Hx; rewrite H. Qed.

End ObjectFacts.

Lemma keyOrder_plain ks :
  all (fun k => ~~ arrayIndex k) ks -> keyOrder ks = ks.
Proof.
move=> Hks; rewrite /keyOrder.
have /all_filterP -> : all (fun k => ~~ arrayIndex k) ks by [].
suff -> : [seq k <- ks | arrayIndex k] = [::] by [].
apply/eqP; rewrite -(negbK (_ == _)) -has_filter -all_predC.
exact: Hks.
Qed.

Lemma perm_keyOrder ks : perm_eq (keyOrder ks) ks.
Proof.
pose a := fun k : jsstring => isSome (arrayIndex k).
apply: (@perm_trans _ ([seq k <- ks | a k] ++ [seq k <- ks | predC a k])).
  by rewrite perm_cat2r perm_sort.
by rewrite perm_filterC.
Qed.

Lemma mem_keyOrder ks : keyOrder ks =i ks.
Proof. exact: perm_mem (perm_keyOrder ks). Qed.

Lemma uniq_keyOrder ks : uniq (keyOrder ks) = uniq ks.
Proof. exact: perm_uniq (perm_keyOrder ks). Qed.

Lemma pmap_total (A : eqType) (B : Type) (f : A -> option B) (h : A -> B)
      (s : seq A) :
  {in s, forall x, f x = Some (h x)} -> pmap f s = map h s.
Proof.
elim: s => [|x s IH] //= H.
rewrite (H x) ?mem_head //= IH // => y Hy.
by apply: H; rewrite in_cons Hy orbT.
Qed.

Lemma entries_table (V : Type) ks (g : jsstring -> V) :
  entries (table ks g) = table (keyOrder ks) g.
Proof.
rewrite /entries /ownKeys names_table; apply: pmap_total => k.
by rewrite mem_keyOrder own_table => ->.
Qed.

(** ** Sets *)

Lemma setOf_rcons xs x : setOf (rcons xs x) = setAdd (setOf xs) x.
Proof. by rewrite /setOf -cats1 foldl_cat. Qed.

Lemma mem_setAdd s x : setAdd s x =i x :: s.
Proof.
move=> y; rewrite /setAdd; case E: (x \in s).
  by rewrite in_cons; case Ey: (y == x) => //; rewrite (eqP Ey) E.
by rewrite mem_rcons.
Qed.

Lemma uniq_setAdd s x : uniq s -> uniq (setAdd s x).
Proof.
by move=> Hu; rewrite /setAdd; case E: (x \in s) => //; rewrite rcons_uniq E.
Qed.

Lemma mem_setOf xs : setOf xs =i xs.
Proof.
elim/last_ind: xs => [|xs x IH] // y.
by rewrite setOf_rcons mem_setAdd mem_rcons !in_cons IH.
Qed.

Lemma uniq_setOf xs : uniq (setOf xs).
Proof.
elim/last_ind: xs => [|xs x IH] //.
by rewrite setOf_rcons; apply: uniq_setAdd.
Qed.

(** ** Counting by label *)

Lemma increment_table ks (f : jsstring -> nat) k :
  uniq ks -> k \in ks ->
  increment (table ks (fun x => Num (f x))) k
  = table ks (fun x => Num (f x + (x == k))).
Proof.
move=> Hu Hk; rewrite /increment (get_own (x := Num (f k))) ?own_table ?Hk //.
rewrite define_table //; apply: eq_table => x _.
by case E: (x == k); rewrite ?addn0 // (eqP E) addn1.
Qed.

Lemma bump_table ks (f : jsstring -> nat) k :
  uniq ks -> k \in ks ->
  bump (table ks (fun x => Num (f x))) k
  = table ks (fun x => Num (f x + (x == k))).
Proof.
move=> Hu Hk; rewrite /bump (get_own (x := Num (f k))) ?own_table ?Hk //.
rewrite define_table //; apply: eq_table => x _.
by case E: (x == k); rewrite ?addn0 // (eqP E) addn1.
Qed.

Lemma bump_table_fresh ks (f : jsstring -> nat) k :
  k \notin ks -> ~~ inherited k -> f k = 0 ->
  bump (table ks (fun x => Num (f x))) k
  = table (rcons ks k) (fun x => Num (f x + (x == k))).
Proof.
move=> Hk Hs Hf; rewrite /bump get_fresh ?names_table //.
rewrite define_table_fresh // /table map_rcons Hf eqxx; congr rcons.
apply/eq_in_map => x Hx; case E: (x == k); last by rewrite addn0.
by move: Hk; rewrite -(eqP E) Hx.
Qed.

Lemma sum_counts (T : Type) (K : eqType) (lab : T -> K) (ks : seq K)
      (data : seq T) :
  uniq ks ->
  sumn [seq count (fun e => lab e == k) data | k <- ks]
  = count (fun e => lab e \in ks) data.
Proof.
move=> Hu; elim: data => [|e data IH] /=.
  by elim: ks {Hu} => [|k ks IH].
rewrite -IH; elim: ks Hu {IH} => [|k ks IH] //= /andP [Hk Hu].
rewrite in_cons IH //; case E: (lab e == k) => /=.
  by rewrite (eqP E) (negbTE Hk) add0n addnA.
by rewrite !add0n addnCA.
Qed.

Lemma foldl_ext (A B : Type) (f g : A -> B -> A) (z : A) (s : seq B) :
  f =2 g -> foldl f z s = foldl g z s.
Proof. by move=> H; elim: s z => [|x s IH] z //=; rewrite H IH. Qed.

Lemma tally_fixed (T : Type) (lab : T -> jsstring) ks (data : seq T) :
  uniq ks -> (forall e, lab e \in ks) ->
  foldl (fun counts e => increment counts (lab e))
        (table ks (fun=> Num 0)) data
  = table ks (fun k => Num (count (fun e => lab e == k) data)).
Proof.
move=> Hu Hlab; elim/last_ind: data => [|data e IH] //.
rewrite -cats1 foldl_cat IH /= increment_table //.
apply: eq_table => k _; rewrite count_cat /= addn0.
by rewrite [k == _]eq_sym.
Qed.

(** ** Intents *)

Lemma firstMatch_label tbl text k :
  firstMatch tbl text = Some k -> k \in [seq lr.1 | lr <- tbl].
Proof.
elim: tbl => [|[k1 re] tbl IH] //=.
case: ((k1 != OTHER) && test re text) => [[->]|/IH H].
  exact: mem_head.
by rewrite in_cons H orbT.
Qed.

Lemma intentOf_label e : intentOf e \in intentLabels.
Proof.
rewrite /intentOf; case E: (firstMatch intents (content e)) => [k|] /=.
  exact: firstMatch_label E.
by [].
Qed.

Arguments test : simpl never.

Lemma intentOf_priority e :
  intentOf e
  = nth OTHER intentLabels
        (find (fun lr => test lr.2 (content e)) (take 5 intents)).
Proof.
rewrite /intentOf /=.
by do 5?[case: (test _ (content e)) => //=].
Qed.

(** C3.  [classifyIntents] lists the six labels in their declared order,
    each with the number of records whose bucket it is; the bucket of a
    record is the label of the first pattern, in the order of the table,
    that matches its content, and the catch-all when none of the five
    does; the six counts add up to the number of records. *)
Theorem classifyIntents_spec (data : seq SmmLogEntry) :
  [/\ classifyIntents data
      = [seq (l, Num (count (fun e => intentOf e == l) data))
        | l <- intentLabels],
      [seq nv.1 | nv <- classifyIntents data]
      = [:: js "闲聊/问候"; js "行情/价格"; js "趋势/预测"; js "数据/库存";
            js "知识/百科"; js "其他"],
      sumn [seq count (fun e => intentOf e == l) data | l <- intentLabels]
      = size data
    & forall e : SmmLogEntry,
        intentOf e
        = nth OTHER intentLabels
              (find (fun lr => test lr.2 (content e)) (take 5 intents))].
Proof.
have Hcl : classifyIntents data
    = [seq (l, Num (count (fun e => intentOf e == l) data))
      | l <- intentLabels].
  rewrite /classifyIntents.
  have Hstep : (fun counts entry =>
                  if firstMatch intents (content entry) is Some key
                  then increment counts key else increment counts OTHER)
               =2 (fun counts e => increment counts (intentOf e)).
    by move=> c e; rewrite /intentOf; case: (firstMatch _ _).
  rewrite (foldl_ext _ _ Hstep).
  have -> : [:: (js "闲聊/问候", Num 0); (js "行情/价格", Num 0);
                (js "趋势/预测", Num 0); (js "数据/库存", Num 0);
                (js "知识/百科", Num 0); (OTHER, Num 0)]
            = table intentLabels (fun=> Num 0) by [].
  have Hu : uniq intentLabels by [].
  rewrite (tally_fixed _ Hu intentOf_label).
  by rewrite entries_table keyOrder_plain.
split=> //.
- by rewrite Hcl -map_comp.
- rewrite sum_counts //; apply/eqP; rewrite -all_count.
  by apply: all_always => e; apply: intentOf_label.
- exact: intentOf_priority.
Qed.

(** ** User types *)

Lemma valueSum_positive nvs :
  valueSum [seq nv <- nvs | positive nv.2] = valueSum nvs.
Proof.
rewrite /valueSum; elim: nvs => [|[k v] nvs IH] //=.
by case: v => [[|n]||m n] /=; rewrite IH.
Qed.

Lemma userType_fold data i x u :
  foldl (fun acc entry =>
           let: (internal, external, unknown) := acc in
           if isInternalUser entry then (internal.+1, external, unknown)
           else if (company entry != [::]) && (trim (company entry) != [::])
           then (internal, external.+1, unknown)
           else (internal, external, unknown.+1))
        (i, x, u) data
  = (i + count isInternalUser data, x + count isExternal data,
     u + count isUnknown data).
Proof.
elim: data i x u => [|e data IH] i x u /=; first by rewrite !addn0.
rewrite /isExternal /isUnknown.
have -> : (company e != [::]) && (trim (company e) != [::])
          = (trim (company e) != [::]) by case: (company e).
case: (isInternalUser e) => /=; first by rewrite IH addSnnS !add0n.
by case: (trim (company e) == [::]); rewrite /= IH ?addSnnS !add0n.
Qed.

(** C7.  [getUserTypeDistribution] puts every record in exactly one of
    three classes: internal when the Internal-User Rule matches, else
    external when the company is not empty after trimming, else unknown.
    It lists the classes that are not empty, in this order, each with its
    number of records, and these numbers add up to the number of records. *)
Theorem getUserTypeDistribution_spec (data : seq SmmLogEntry) :
  [/\ getUserTypeDistribution data
      = [seq item <- [:: (js "内部员工", Num (count isInternalUser data));
                         (js "外部客户", Num (count isExternal data));
                         (js "未知", Num (count isUnknown data))]
        | 0 < countOf item.2],
      valueSum (getUserTypeDistribution data) = size data,
      count isInternalUser data + count isExternal data
      + count isUnknown data = size data
    & forall e : SmmLogEntry,
        [/\ isInternalUser e (+) (isExternal e (+) isUnknown e),
            ~~ (isInternalUser e && isExternal e),
            ~~ (isInternalUser e && isUnknown e)
          & ~~ (isExternal e && isUnknown e)]].
Proof.
have Hsum : count isInternalUser data + count isExternal data
            + count isUnknown data = size data.
  elim: data => [|e data IH] //=; rewrite -[in RHS]IH /isExternal /isUnknown.
  case: (isInternalUser e); case: (trim (company e) == [::]) => /=;
    by rewrite ?add0n ?add1n ?addn0 ?addSn ?addnS.
have Hdef : getUserTypeDistribution data
      = [seq item <- [:: (js "内部员工", Num (count isInternalUser data));
                         (js "外部客户", Num (count isExternal data));
                         (js "未知", Num (count isUnknown data))]
        | positive item.2].
  by rewrite /getUserTypeDistribution userType_fold !add0n.
split=> //.
- by rewrite Hdef valueSum_positive /valueSum /= addn0 addnA.
- move=> e; rewrite /isExternal /isUnknown.
  by case: (isInternalUser e); case: (trim (company e) == [::]).
Qed.

(** ** Hours *)

Lemma hourOf_lt24 e h : hourOf e = Some h -> h < 24.
Proof.
rewrite /hourOf; case: (at_ _ 1) => [[|c r]|] //.
case: (parseInt10 _) => [z|] //.
case E: (Z.leb 0 z && Z.ltb z 24) => // -[<-].
move/andP: E => [/Z.leb_le H0 /Z.ltb_lt H24].
by apply/ltP; lia.
Qed.

Lemma bump_slot (f : nat -> nat) (n h : nat) :
  h < n ->
  set_nth 0 (mkseq f n) h (nth 0 (mkseq f n) h).+1
  = mkseq (fun i => f i + (i == h)) n.
Proof.
move=> Hh; apply: (@eq_from_nth _ 0).
  by rewrite size_set_nth !size_mkseq; apply/maxn_idPr.
move=> i; rewrite size_set_nth size_mkseq (maxn_idPr Hh) => Hi.
rewrite nth_set_nth /= !nth_mkseq //.
by case: (i == h) / eqP => [->|_]; rewrite ?addn1 ?addn0 // nth_mkseq.
Qed.

Lemma hourly_fold data :
  foldl (fun counts entry =>
           if hourOf entry is Some h
           then set_nth 0 counts h (nth 0 counts h).+1 else counts)
        (nseq 24 0) data
  = mkseq (fun h => count (fun e => hourOf e == Some h) data) 24.
Proof.
elim/last_ind: data => [|data e IH] //.
rewrite -cats1 foldl_cat IH /=.
case E: (hourOf e) => [h|].
  rewrite (bump_slot _ (hourOf_lt24 E)).
  apply: eq_mkseq => i; rewrite count_cat /= addn0 E.
  by rewrite [Some h == _]eq_sym.
by apply: eq_mkseq => i; rewrite count_cat /= E !addn0.
Qed.

Lemma split_nosep c a : c \notin a -> split c a = [:: a].
Proof.
elim: a => [|x a IH] //=.
by rewrite in_cons negb_or eq_sym => /andP [/negbTE -> /IH ->].
Qed.

Lemma split_cat c a t : c \notin a -> split c (a ++ c :: t) = a :: split c t.
Proof.
elim: a => [|x a IH] /=; first by rewrite eqxx.
by rewrite in_cons negb_or eq_sym => /andP [/negbTE -> /IH ->].
Qed.

Lemma head_split c s : head [::] (split c s) = beforeFirst c s.
Proof. by elim: s => [|x s IH] //=; case: (x == c) => //=; rewrite IH. Qed.

Lemma hourOfE e :
  hourOf e = if at_ (split SPACE (time e)) 1 is Some timePart
             then hourFrom timePart else None.
Proof.
rewrite /hourOf /hourFrom; case: (at_ _ 1) => [[|c r]|] //.
by rewrite head_split.
Qed.

(** C4, as stated, fails.  In a time with two spaces after the date, the
    integer before the first colon of what follows the first space is 10,
    but the record is counted at no hour. *)
Lemma getHourlyStats_double_space :
  hourAfterFirstSpace doubleSpaced = Some 10
  /\ [seq count_ s | s <- getHourlyStats [:: doubleSpaced]] = nseq 24 0.
Proof. by []. Qed.

(** C4, amended.  [getHourlyStats] returns 24 entries, for the hours 0 to
    23 in order, labelled [H:00]; the entry of hour [h] counts the records
    whose time has a non-empty part between its first and its second
    space (or its end) such that the integer before the first colon of
    that part parses to [h]; the other records are skipped, so the counts
    add up to at most the number of records. *)
Theorem getHourlyStats_spec (data : seq SmmLogEntry) :
  [/\ getHourlyStats data
      = [seq mkHourly (decimal h ++ js ":00")
                      (count (fun e => hourOf e == Some h) data)
        | h <- iota 0 24],
      size (getHourlyStats data) = 24,
      sumn [seq count_ s | s <- getHourlyStats data]
      = count (fun e => isSome (hourOf e)) data,
      sumn [seq count_ s | s <- getHourlyStats data] <= size data
    & forall (e : SmmLogEntry) (d seg : jsstring),
        SPACE \notin d -> SPACE \notin seg ->
        [/\ time e = d -> hourOf e = None,
            time e = d ++ SPACE :: seg -> hourOf e = hourFrom seg
          & forall rest, time e = d ++ SPACE :: seg ++ SPACE :: rest ->
                         hourOf e = hourFrom seg]].
Proof.
have Hdef : getHourlyStats data
      = [seq mkHourly (decimal h ++ js ":00")
                      (count (fun e => hourOf e == Some h) data)
        | h <- iota 0 24].
  rewrite /getHourlyStats hourly_fold size_mkseq /mkseq.
  by rewrite -{2}(map_id (iota 0 24)) zip_map -map_comp.
have Hsum : sumn [seq count_ s | s <- getHourlyStats data]
            = count (fun e => isSome (hourOf e)) data.
  rewrite Hdef -map_comp.
  have -> : [seq (count_ \o (fun h => mkHourly (decimal h ++ js ":00")
                      (count (fun e => hourOf e == Some h) data))) h
            | h <- iota 0 24]
          = [seq count (fun e => hourOf e == k) data
            | k <- [seq Some h | h <- iota 0 24]] by rewrite -map_comp.
  have Hu : uniq [seq Some h | h <- iota 0 24].
    by rewrite map_inj_uniq ?iota_uniq // => x y [].
  rewrite (sum_counts _ _ Hu).
  apply: eq_count => e; case E: (hourOf e) => [h|]; last by [].
  by rewrite mem_map ?mem_iota ?(hourOf_lt24 E) // => x y [].
split=> //.
- by rewrite Hdef size_map size_iota.
- by rewrite Hsum count_size.
- move=> e d seg Hd Hseg; rewrite hourOfE; split=> [->|->|rest ->].
  + by rewrite split_nosep.
  + by rewrite split_cat // split_nosep.
  + by rewrite split_cat // split_cat.
Qed.

(** ** Values and sorted tables *)

Lemma byValueDesc_total : {in counted &, total byValueDesc}.
Proof.
move=> [a [x||m n]] [b [y||m' n']] //= _ _.
by rewrite /byValueDesc /= leq_total.
Qed.

Lemma byValueDesc_trans : {in counted & &, transitive byValueDesc}.
Proof.
move=> [b [y||m n]] [a [x||m' n']] [c [z||m'' n'']] //= _ _ _.
by rewrite /byValueDesc /= => H1 H2; apply: leq_trans H2 H1.
Qed.

Lemma all_counted_table ks (f : jsstring -> nat) :
  all counted (table ks (fun k => Num (f k))).
Proof. by rewrite /table all_map; apply: all_always. Qed.

Lemma pairwise_index (ks : seq jsstring) :
  uniq ks -> pairwise (fun a b => index a ks <= index b ks) ks.
Proof.
move=> Hu; apply/(pairwiseP [::]) => i j Hi Hj Hij.
by rewrite !index_uniq // ltnW.
Qed.

Lemma sort_table_ranked ks ks' (f : jsstring -> nat) :
  uniq ks -> subseq ks' ks ->
  sorted (ranked ks) (sort byValueDesc (table ks' (fun k => Num (f k)))).
Proof.
move=> Hu Hsub.
pose listed := fun a b : jsstring * jsvalue => index a.1 ks <= index b.1 ks.
have Htr : {in counted & &, transitive listed}.
  by move=> b a c _ _ _; apply: leq_trans.
have Hin : sorted listed (table ks' (fun k => Num (f k))).
  apply: pairwise_sorted; rewrite /table pairwise_map.
  exact: subseq_pairwise Hsub (pairwise_index Hu).
have := sort_stable_in byValueDesc_total Htr (all_counted_table ks' f) Hin.
apply: (@sub_in_sorted _ counted); last by rewrite all_sort all_counted_table.
move=> [a [x||m n]] [b [y||m' n']] //= _ _; rewrite /byValueDesc /ranked /=.
rewrite /listed /= ltn_neqAle; case: (y <= x) => //=.
rewrite [x == y]eq_sym; case E: (y == x) => /=.
  by rewrite (eqP E) leqnn.
by [].
Qed.

(** ** Vocabularies *)

Lemma vocabulary_metals : vocabulary metals.
Proof. by vm_compute. Qed.

Lemma vocabulary_keywords : vocabulary keywords.
Proof. by vm_compute. Qed.

Lemma tally_init terms :
  uniq terms -> all (fun t => ~~ inherited t) terms ->
  foldl (fun counts m => assign counts m (Num 0)) [::] terms
  = table terms (fun=> Num 0).
Proof.
elim/last_ind: terms => [|terms m IH] //.
rewrite rcons_uniq all_rcons => /andP [Hm Hu] /andP [Hs Ha].
rewrite -cats1 foldl_cat IH //= /assign.
move: Hs; rewrite /inherited negb_or => /andP [_ /negbTE ->].
by rewrite define_table_fresh // /table map_cat cats1.
Qed.

Lemma tally_record ks (f : jsstring -> nat) ts text :
  uniq ks -> uniq ts -> {subset ts <= ks} ->
  foldl (fun counts m =>
           if includes text m then increment counts m else counts)
        (table ks (fun x => Num (f x))) ts
  = table ks (fun x => Num (f x + ((x \in ts) && includes text x))).
Proof.
move=> Hu; elim: ts f => [|m ts IH] f /=.
  by move=> _ _; apply: eq_table => x _; rewrite addn0.
move=> /andP [Hm Hts] Hsub.
have Hmk : m \in ks by apply: Hsub; rewrite mem_head.
have Hsub' : {subset ts <= ks}.
  by move=> x Hx; apply: Hsub; rewrite in_cons Hx orbT.
case E: (includes text m).
  rewrite increment_table // IH //; apply: eq_table => x _.
  rewrite in_cons; case Ex: (x == m) => /=; last by rewrite addn0.
  by rewrite (eqP Ex) (negbTE Hm) E /= addn0.
rewrite IH //; apply: eq_table => x _.
rewrite in_cons; case Ex: (x == m) => //=.
by rewrite (eqP Ex) (negbTE Hm) E.
Qed.

Lemma tallyE terms data :
  vocabulary terms ->
  tally terms data = table terms (fun t => Num (occurrences data t)).
Proof.
move=> /andP [Hu Hall].
have Hs : all (fun t => ~~ inherited t) terms.
  by apply: sub_all Hall => t /andP [].
rewrite /tally (tally_init Hu Hs).
elim/last_ind: data => [|data e IH] //.
rewrite -cats1 foldl_cat IH /= tally_record //.
apply: eq_table => t Ht.
by rewrite /occurrences count_cat /= addn0 Ht.
Qed.

Lemma entries_tally terms data :
  vocabulary terms ->
  entries (tally terms data) = table terms (fun t => Num (occurrences data t)).
Proof.
move=> Hv; rewrite tallyE // entries_table keyOrder_plain //.
by case/andP: Hv => _; apply: sub_all => t /andP [].
Qed.

Lemma positive_table terms data :
  [seq nv <- table terms (fun t => Num (occurrences data t)) | positive nv.2]
  = occurring terms data.
Proof. by rewrite /table filter_map. Qed.

Example includes_case_sensitive :
  includes (js "lme 铜价") (js "LME") = false
  /\ includes (js "今日LME铜价") (js "LME") = true.
Proof. by []. Qed.

Lemma getMetalDistributionE data :
  getMetalDistribution data = sort byValueDesc (occurring metals data).
Proof.
rewrite /getMetalDistribution (entries_tally _ vocabulary_metals).
by rewrite positive_table.
Qed.

Lemma getTopKeywordsE data :
  getTopKeywords data = sort byValueDesc (occurring keywords data).
Proof.
rewrite /getTopKeywords -/(entries (tally keywords data)).
rewrite (entries_tally _ vocabulary_keywords).
rewrite (filter_sort_in byValueDesc_total byValueDesc_trans _
           (all_counted_table _ _)).
by rewrite positive_table.
Qed.

Lemma sort_occurring_ranked terms data :
  uniq terms -> sorted (ranked terms) (sort byValueDesc (occurring terms data)).
Proof.
by move=> Hu; apply: (sort_table_ranked _ Hu); apply: filter_subseq.
Qed.

(** C9.  [getMetalDistribution] and [getTopKeywords] count, for each term
    of their vocabulary, the records whose content includes the term as it
    is written; they return the terms that occur at least once, by
    descending count, terms of equal count in the order of the
    vocabulary. *)
Theorem multiLabel_spec (data : seq SmmLogEntry) :
  [/\ getMetalDistribution data = sort byValueDesc (occurring metals data),
      perm_eq (getMetalDistribution data) (occurring metals data)
    & sorted (ranked metals) (getMetalDistribution data)]
  /\
  [/\ getTopKeywords data = sort byValueDesc (occurring keywords data),
      perm_eq (getTopKeywords data) (occurring keywords data)
    & sorted (ranked keywords) (getTopKeywords data)].
Proof.
have Hum : uniq metals by case/andP: vocabulary_metals.
have Huk : uniq keywords by case/andP: vocabulary_keywords.
split; split.
- exact: getMetalDistributionE.
- rewrite getMetalDistributionE; exact/permPl/perm_sort.
- rewrite getMetalDistributionE; exact: sort_occurring_ranked.
- exact: getTopKeywordsE.
- rewrite getTopKeywordsE; exact/permPl/perm_sort.
- rewrite getTopKeywordsE; exact: sort_occurring_ranked.
Qed.

(** ** Counting into buckets named by the data *)

Section Buckets.

(** The bucket of a record, if it has one. *)
Variable lab : SmmLogEntry -> option jsstring.

Lemma members_unseen data k : k \notin seen lab data -> members lab data k = 0.
Proof.
rewrite /seen mem_setOf mem_pmap /members => Hk.
rewrite -(count_map lab (pred1 (Some k))).
exact/count_memPn.
Qed.

Lemma mem_seen data e k : e \in data -> lab e = Some k -> k \in seen lab data.
Proof.
move=> He Hk; rewrite /seen mem_setOf mem_pmap -Hk.
exact: map_f.
Qed.

Lemma groupedE data :
  safe lab data -> grouped lab data = table (seen lab data) (fun k => Num (members lab data k)).
Proof.
elim/last_ind: data => [|data e IH] //.
rewrite /safe all_rcons => /andP [He /IH {}IH].
rewrite /grouped -cats1 foldl_cat /= -/(grouped lab data) IH.
rewrite /seen pmap_cat /=.
case E: (lab e) He => [k|] /= Hk.
  rewrite cats1 setOf_rcons /setAdd -/(seen lab data).
  case Hin: (k \in seen lab data).
    rewrite bump_table ?uniq_setOf //; apply: eq_table => x _.
    by rewrite /members count_cat /= addn0 E [Some k == _]eq_sym.
  have Hnew : k \notin seen lab data by rewrite Hin.
  rewrite (bump_table_fresh Hnew Hk (members_unseen Hnew)).
  apply: eq_table => x _.
  by rewrite /members count_cat /= addn0 E [Some k == _]eq_sym.
rewrite cats0; apply: eq_table => x _.
by rewrite /members count_cat /= E !addn0.
Qed.

Lemma entries_grouped data :
  safe lab data ->
  entries (grouped lab data)
  = table (keyOrder (seen lab data)) (fun k => Num (members lab data k)).
Proof. by move=> Hs; rewrite groupedE // entries_table. Qed.

Lemma valueSum_grouped data :
  safe lab data ->
  valueSum (entries (grouped lab data)) = count (fun e => isSome (lab e)) data.
Proof.
move=> Hs; rewrite entries_grouped // /valueSum /table -map_comp.
have -> : [seq (fun nv : NamedValue => countOf nv.2)
                 ((fun k => (k, Num (members lab data k))) k)
          | k <- keyOrder (seen lab data)]
        = [seq count (fun e => lab e == k') data
          | k' <- [seq Some k | k <- keyOrder (seen lab data)]].
  by rewrite -map_comp.
have Hu : uniq [seq Some k | k <- keyOrder (seen lab data)].
  by rewrite map_inj_uniq ?uniq_keyOrder ?uniq_setOf // => x y [].
rewrite (sum_counts _ _ Hu).
have Hinj : injective (@Some jsstring) by move=> x y [].
apply: eq_in_count => e He; case E: (lab e) => [k|] /=.
  by rewrite (mem_map Hinj) mem_keyOrder (mem_seen He E).
by apply/negbTE/negP => /mapP [].
Qed.

End Buckets.

(** ** Sources *)

Lemma getSourceDistributionE data :
  getSourceDistribution data
  = entries (grouped (fun e => Some (sourceLabel e)) data).
Proof. by []. Qed.

(** Apart from the names inherited from [Object.prototype], the source
    distribution is what the specification says: one entry per label, an
    empty source under [Unknown], and counts that add up to the number of
    records. *)
Lemma getSourceDistribution_own_labels (data : seq SmmLogEntry) :
  all (fun e => ~~ inherited (sourceLabel e)) data ->
  getSourceDistribution data
  = [seq (k, Num (count (fun e => sourceLabel e == k) data))
    | k <- keyOrder (setOf [seq sourceLabel e | e <- data])]
  /\ valueSum (getSourceDistribution data) = size data.
Proof.
move=> Hs; rewrite getSourceDistributionE.
have Hsafe : safe (fun e => Some (sourceLabel e)) data by [].
split.
  have Hlab : pmap (fun e => Some (sourceLabel e)) data
              = [seq sourceLabel e | e <- data] by exact: pmap_total.
  by rewrite (entries_grouped Hsafe) /seen Hlab.
rewrite (valueSum_grouped Hsafe).
by apply/eqP; rewrite -all_count; apply: all_always.
Qed.

(** C2 fails on the code.  A record whose source is [constructor] is
    listed with a text, not a count, as its value; a record whose source is
    [__proto__] is not listed at all.  In both cases the values do not add
    up to the number of records, which is 1. *)
Theorem getSourceDistribution_inherited_label :
  [/\ getSourceDistribution [:: fromSource (js "constructor")]
      = [:: (js "constructor", Str (js "constructor") 1)],
      render (Str (js "constructor") 1)
      = js "function Object() { [native code] }1",
      getSourceDistribution [:: fromSource (js "__proto__")] = [::]
    & valueSum (getSourceDistribution [:: fromSource (js "__proto__")])
      != size [:: fromSource (js "__proto__")]].
Proof. by []. Qed.

(** ** Companies *)

Lemma startsWith_cat s t k : startsWith s k -> startsWith (s ++ t) k.
Proof.
elim: k s => [|a k IH] [|b s] //=; first by case: t.
by case/andP => -> /IH.
Qed.

Lemma includes_cat_l s t k : includes s k -> includes (s ++ t) k.
Proof.
elim: s => [|c s IH] /=.
  by rewrite orbF; case: k => //; case: t.
case: k IH => [|a k] IH //.
case/orP => [/andP [-> Hs]|/IH ->]; last by rewrite orbT.
by rewrite (startsWith_cat _ Hs).
Qed.

(** A company that contains [SMM], in any mix of cases, is internal. *)
Lemma company_smm_internal e :
  includes (toLowerCase (company e)) (js "smm") -> isInternalUser e.
Proof.
move=> H; rewrite /isInternalUser /= orbF.
by rewrite /toLowerCase map_cat (includes_cat_l _ H).
Qed.

Lemma getTopCompaniesE data :
  getTopCompanies data
  = take 10 (sort byValueDesc (entries (grouped bucket data))).
Proof.
rewrite /getTopCompanies /grouped; congr (take _ (sort _ (entries _))).
apply: foldl_ext => counts e; rewrite /bucket.
case: (isInternalUser e) => //.
by case: (company e) => [|c r] //; case: (trim _).
Qed.

(** C8, as stated, fails.  Two companies with one record each: [360] is
    seen second and listed first. *)
Lemma getTopCompanies_numeric_name :
  seen bucket twoCompanies = [:: js "阿里"; js "360"]
  /\ getTopCompanies twoCompanies
     = [:: (js "360", Num 1); (js "阿里", Num 1)].
Proof. by []. Qed.

(** C8, amended.  When no company bears the name of a member inherited
    from [Object.prototype], [getTopCompanies] counts every internal record
    under the one label [INTERNAL_LABEL], every other record under its
    trimmed company unless that is empty, and returns the first ten
    buckets by descending count; buckets of equal count stand in the order
    in which the object lists its names: the names that are array indices
    in ascending numeric order, then the other names as first seen. *)
Theorem getTopCompanies_spec (data : seq SmmLogEntry) :
  safe bucket data ->
  let listed := keyOrder (seen bucket data) in
  let board :=
    sort byValueDesc [seq (k, Num (members bucket data k)) | k <- listed] in
  [/\ getTopCompanies data = take 10 board,
      size (getTopCompanies data) <= 10,
      perm_eq board
        [seq (k, Num (members bucket data k)) | k <- seen bucket data],
      sorted (ranked listed) board
    & forall e : SmmLogEntry,
        [/\ isInternalUser e -> bucket e = Some INTERNAL_LABEL,
            includes (toLowerCase (company e)) (js "smm") ->
            bucket e = Some INTERNAL_LABEL
          & ~~ isInternalUser e ->
            bucket e = if trim (company e) is [::] then None
                       else Some (trim (company e))]].
Proof.
move=> Hsafe listed board.
have Hboard : getTopCompanies data = take 10 board.
  by rewrite getTopCompaniesE (entries_grouped Hsafe).
have Hu : uniq listed by rewrite /listed uniq_keyOrder uniq_setOf.
split.
- exact: Hboard.
- by rewrite Hboard size_take; case: ltnP.
- by rewrite /board perm_sort; apply: perm_map; apply: perm_keyOrder.
- exact: (sort_table_ranked _ Hu (subseq_refl _)).
- move=> e; rewrite /bucket; split.
  + by move=> ->.
  + by move=> /company_smm_internal ->.
  + by move=> /negbTE ->.
Qed.

(** ** Grouping records under names taken from the data *)

Lemma rcons_table (V : Type) ks (g : jsstring -> V) k v :
  k \notin ks ->
  rcons (table ks g) (k, v)
  = table (rcons ks k) (fun x => if x == k then v else g x).
Proof.
move=> Hk; rewrite /table map_rcons eqxx; congr rcons.
apply/eq_in_map => x Hx; case E: (x == k) => //.
by move: Hk; rewrite -(eqP E) Hx.
Qed.

Section Grouping.

Variables (V : Type) (lab : SmmLogEntry -> option jsstring).
Variables (init : V) (upd : V -> SmmLogEntry -> V).

Lemma group_rcons data e k :
  group lab (rcons data e) k
  = if lab e == Some k then rcons (group lab data k) e else group lab data k.
Proof. by rewrite /group filter_rcons. Qed.

Lemma group_unseen data k : k \notin seen lab data -> group lab data k = [::].
Proof.
move=> /members_unseen H; apply: size0nil.
by rewrite /group size_filter.
Qed.

Lemma seen_rcons data e :
  seen lab (rcons data e)
  = if lab e is Some k then setAdd (seen lab data) k else seen lab data.
Proof.
rewrite /seen -cats1 pmap_cat /=; case: (lab e) => [k|] /=.
  by rewrite cats1 setOf_rcons.
by rewrite cats0.
Qed.

Lemma folded_skip data e : lab e = None -> folded lab init upd (rcons data e) = folded lab init upd data.
Proof.
move=> E; rewrite /folded seen_rcons E; apply: eq_table => k _.
by rewrite group_rcons E.
Qed.

Lemma folded_step data e k :
  lab e = Some k -> ~~ inherited k ->
  exists2 v, get (ensure (folded lab init upd data) k init) k = Own v
           & define (ensure (folded lab init upd data) k init) k (upd v e)
             = folded lab init upd (rcons data e).
Proof.
move=> E Hk; rewrite /folded seen_rcons E /setAdd.
set g := fun k => foldl upd init (group lab data k).
have Hg' x : foldl upd init (group lab (rcons data e) x)
             = if x == k then upd (g k) e else g x.
  rewrite group_rcons E [Some k == _]eq_sym.
  case Ex: (x == k); last by rewrite (_ : (Some x == Some k) = false).
  by rewrite (eqP Ex) eqxx -cats1 foldl_cat.
case Hin: (k \in seen lab data).
  exists (g k).
    by rewrite /ensure !(get_own (x := g k)) ?own_table ?Hin.
  rewrite /ensure (get_own (x := g k)) ?own_table ?Hin //.
  rewrite define_table ?uniq_setOf //.
  by apply: eq_table => x _; rewrite Hg'.
have Hnew : k \notin seen lab data by rewrite Hin.
have Hens : ensure (table (seen lab data) g) k init
            = table (rcons (seen lab data) k)
                    (fun x => if x == k then init else g x).
  rewrite /ensure get_fresh ?names_table //.
  by rewrite define_table_fresh // rcons_table.
have Hu : uniq (rcons (seen lab data) k) by rewrite rcons_uniq Hnew uniq_setOf.
have Hk' : k \in rcons (seen lab data) k by rewrite mem_rcons mem_head.
exists init.
  by rewrite Hens (get_own (x := init)) // own_table Hk' eqxx.
rewrite Hens define_table //; apply: eq_table => x _.
rewrite Hg'; case: (x == k) => //.
by rewrite /g group_unseen.
Qed.

End Grouping.

(** ** The order of [sort()] *)

Lemma ltbP (x y : N) : reflect (x < y)%num (N.ltb x y).
Proof. by apply: (iffP idP) => /N.ltb_lt. Qed.

Lemma strLeq_total : total strLeq.
Proof.
elim=> [|x a IH] [|y b] //=.
case: (ltbP x y) => //= Hxy; case: (ltbP y x) => /= Hyx.
  by rewrite orbT.
have -> : x = y by lia.
by rewrite eqxx /=; apply: IH.
Qed.

Lemma strLeq_trans : transitive strLeq.
Proof.
elim=> [|y b IH] [|x a] [|z c] //=.
case: (ltbP x y) => /= Hxy.
  move=> _; case: (ltbP y z) => /= Hyz.
    by move=> _; case: (ltbP x z) => //=; lia.
  case/andP => /eqP <- _.
  by case: (ltbP x y).
case/andP => /eqP <- Hab.
case: (ltbP x z) => //= Hxz.
by case/andP => -> /=; apply: IH.
Qed.

Lemma strLeq_anti : antisymmetric strLeq.
Proof.
elim=> [|x a IH] [|y b] //=.
case: (ltbP x y) => /= Hxy.
  case: (ltbP y x) => /= Hyx; first by lia.
  by case/andP => /eqP E; lia.
case/andP => /andP [/eqP -> Hab].
case: (ltbP y y) => /=; first by lia.
by rewrite eqxx /= => _ Hba; congr cons; apply: IH; rewrite Hab.
Qed.

Lemma sort_keyOrder ks : sort strLeq (keyOrder ks) = sort strLeq ks.
Proof.
apply/(perm_sortP strLeq_total strLeq_trans strLeq_anti).
exact: perm_keyOrder.
Qed.

(** ** Daily trend *)

Lemma trend_fold data :
  datesSafe data ->
  foldl trendStep (Returns [::]) data
  = Returns (folded dateLabel (mkDay 0 [::]) dayUpdate data).
Proof.
elim/last_ind: data => [|data e IH] //.
rewrite /datesSafe all_rcons => /andP [He /IH {}IH].
rewrite foldl_rcons IH /trendStep.
case E: (datePart e) He => [|c r] He.
  by rewrite folded_skip // /dateLabel E.
have Hlab : dateLabel e = Some (c :: r) by rewrite /dateLabel E.
have [v -> <-] := folded_step (mkDay 0 [::]) dayUpdate data Hlab He.
by rewrite /dayUpdate; case: (userId e).
Qed.

Lemma dayUpdate_fold es :
  foldl dayUpdate (mkDay 0 [::]) es
  = mkDay (size es) (setOf [seq userId e | e <- es & userId e != [::]]).
Proof.
elim/last_ind: es => [|es e IH] //.
rewrite -cats1 foldl_cat IH /= /dayUpdate /= size_cat addn1.
rewrite filter_cat map_cat /=; case E: (userId e) => [|c r] /=.
  by rewrite cats0.
by rewrite cats1 setOf_rcons E.
Qed.

Lemma pmap_dateLabel data :
  pmap dateLabel data = [seq datePart e | e <- data & datePart e != [::]].
Proof.
elim: data => [|e data IH] //=; rewrite IH {1}/dateLabel.
by case E: (datePart e) => [|c r] /=; rewrite ?E.
Qed.

Lemma perm_setOf xs : perm_eq (setOf xs) (undup xs).
Proof.
apply: uniq_perm; rewrite ?uniq_setOf ?undup_uniq // => x.
by rewrite mem_setOf mem_undup.
Qed.

Lemma size_setOf xs : size (setOf xs) = size (undup xs).
Proof. exact: perm_size (perm_setOf xs). Qed.

Lemma sort_setOf xs : sort strLeq (setOf xs) = sort strLeq (undup xs).
Proof.
apply/(perm_sortP strLeq_total strLeq_trans strLeq_anti).
exact: perm_setOf.
Qed.

(** Apart from the names inherited from [Object.prototype], the daily
    trend is what the specification says. *)
Lemma getDailyTrend_own_dates (data : seq SmmLogEntry) :
  datesSafe data ->
  [/\ getDailyTrend data = Returns [seq trendOf data d | d <- datesOf data],
      sorted strLeq (datesOf data), uniq (datesOf data)
    & datesOf data =i [seq datePart e | e <- data & datePart e != [::]]].
Proof.
move=> Hs; split.
- rewrite /getDailyTrend (trend_fold Hs) /folded /ownKeys names_table.
  rewrite sort_keyOrder /seen pmap_dateLabel sort_setOf -/(datesOf data).
  congr Returns; apply: pmap_total => d Hd.
  have Hd' : d \in setOf [seq datePart e | e <- data & datePart e != [::]].
    by rewrite mem_setOf -mem_undup -(mem_sort strLeq).
  have Hne : ([::] == d) = false.
    move: Hd'; rewrite mem_setOf => /mapP [e' ]; rewrite mem_filter.
    by case/andP => /negbTE He' _ ->; rewrite eq_sym.
  have Hlab e : (dateLabel e == Some d) = (datePart e == d).
    by rewrite /dateLabel; case E: (datePart e) => [|c r] //; rewrite Hne.
  rewrite own_table Hd' /= dayUpdate_fold /trendOf /=.
  congr (Some (mkTrend _ _ _)).
    by rewrite /group size_filter; apply: eq_count => e; rewrite Hlab.
  rewrite size_setOf /group -filter_predI; congr (size (undup (map _ _))).
  by apply: eq_filter => e /=; rewrite Hlab andbC.
- exact: sort_sorted strLeq_total _.
- by rewrite sort_uniq undup_uniq.
- by move=> d; rewrite mem_sort mem_undup.
Qed.

Example getDailyTrend_scenario2 :
  getDailyTrend [:: logged (js "2024-01-02 10:00:00") (js "u1");
                    logged (js "2024-01-01 23:59:59") (js "u1");
                    logged (js "2024-01-02 08:30:00") (js "u2");
                    logged (js "2024-01-02 23:00:00") [::]]
  = Returns [:: mkTrend (js "2024-01-01") 1 1; mkTrend (js "2024-01-02") 3 2].
Proof. by []. Qed.

(** C5 fails on the code.  A record whose date part is [constructor] makes
    [getDailyTrend] throw when it has a user, and is left out, although its
    date part is not empty, when it has none. *)
Theorem getDailyTrend_inherited_date :
  [/\ datePart (logged (js "constructor 09:15:00") (js "u1")) = js "constructor",
      getDailyTrend [:: logged (js "constructor 09:15:00") (js "u1")] = TypeError,
      getDailyTrend [:: logged (js "2024-01-01 09:15:00") (js "u1");
                        logged (js "constructor 09:15:00") (js "u1")] = TypeError
    & getDailyTrend [:: logged (js "constructor 09:15:00") [::]] = Returns [::]].
Proof. by []. Qed.

(** ** Retention *)

Lemma retention_fold data :
  datesSafe data ->
  foldl retentionStep (Returns [::]) data
  = Returns (folded (fun e => Some (datePart e)) [::]
                    (fun s e => setAdd s (userId e)) data).
Proof.
elim/last_ind: data => [|data e IH] //.
rewrite /datesSafe all_rcons => /andP [He /IH {}IH].
rewrite foldl_rcons IH /retentionStep.
have [v -> <-] := folded_step (lab := fun e => Some (datePart e)) [::]
                              (fun s e => setAdd s (userId e)) data
                              (e := e) erefl He.
by [].
Qed.

Lemma retentionStep_inherited userDays e :
  own userDays (datePart e) = None -> inherited (datePart e) ->
  retentionStep (Returns userDays) e = TypeError.
Proof.
rewrite /inherited /retentionStep /ensure /get => Hown; rewrite Hown.
case Hm: (datePart e \in protoMethods) => /=; first by rewrite Hown.
by move=> ->; rewrite /= Hown.
Qed.

Lemma retention_inherited data :
  ~~ datesSafe data -> foldl retentionStep (Returns [::]) data = TypeError.
Proof.
elim/last_ind: data => [|data e IH] //.
rewrite /datesSafe all_rcons negb_and foldl_rcons.
case Hs: (all _ data); last by move=> _; rewrite IH // /datesSafe Hs.
rewrite orbF negbK (retention_fold Hs) => He.
apply: retentionStep_inherited => //.
rewrite own_table; case Hin: (_ \in _) => //.
move: Hin; rewrite mem_setOf mem_pmap => /mapP [e' He' [Ed]].
by move/allP/(_ e' He'): Hs; rewrite -Ed He.
Qed.

Lemma retentionLoop_step today tomorrow rest acc n :
  retentionLoop [:: today, tomorrow & rest] acc n
  = if 0 < size today
    then retentionLoop (tomorrow :: rest)
           (PrimFloat.add acc
              (PrimFloat.div
                 (numberOfNat (count (fun uid => uid \in tomorrow) today))
                 (numberOfNat (size today))))
           n.+1
    else retentionLoop (tomorrow :: rest) acc n.
Proof. by []. Qed.

Lemma ratios_step today tomorrow rest :
  ratios [:: today, tomorrow & rest]
  = if 0 < size today
    then PrimFloat.div
           (numberOfNat (count (fun uid => uid \in tomorrow) today))
           (numberOfNat (size today)) :: ratios (tomorrow :: rest)
    else ratios (tomorrow :: rest).
Proof. by rewrite /ratios /=; case: (0 < size today). Qed.

Lemma retentionLoopE sets acc n :
  retentionLoop sets acc n
  = (foldl PrimFloat.add acc (ratios sets), n + size (ratios sets)).
Proof.
elim: sets acc n => [|today [|tomorrow rest] IH] acc n.
- by rewrite /= addn0.
- by rewrite /= addn0.
- rewrite retentionLoop_step ratios_step; case: (0 < size today).
    by rewrite IH /= addSnnS.
  by rewrite IH.
Qed.

Lemma setAdd_fold es :
  foldl (fun s e => setAdd s (userId e)) [::] es = setOf [seq userId e | e <- es].
Proof.
elim/last_ind: es => [|es e IH] //.
by rewrite foldl_rcons IH map_rcons setOf_rcons.
Qed.

(** Apart from the names inherited from [Object.prototype], the retention
    rate is what the specification says. *)
Lemma calculateRetention_own_dates (data : seq SmmLogEntry) :
  datesSafe data ->
  calculateRetention data
  = Returns (if size (retentionDates data) < 2 then 0%float
             else meanPercent (ratios [seq dayUsers data d
                                      | d <- retentionDates data])).
Proof.
move=> Hs; rewrite /calculateRetention (retention_fold Hs).
rewrite /folded /ownKeys names_table sort_keyOrder /seen.
have -> : pmap (fun e => Some (datePart e)) data = [seq datePart e | e <- data].
  exact: pmap_total.
rewrite sort_setOf -/(retentionDates data).
case: (size (retentionDates data) < 2) => //.
have -> : pmap (own (table (setOf [seq datePart e | e <- data])
                           (fun k => foldl (fun s e => setAdd s (userId e)) [::]
                                       (group (fun e => Some (datePart e))
                                              data k))))
               (retentionDates data)
          = [seq dayUsers data d | d <- retentionDates data].
  apply: pmap_total => d; rewrite mem_sort mem_undup own_table mem_setOf => ->.
  by rewrite setAdd_fold.
rewrite retentionLoopE add0n /meanPercent.
by case: (ratios _).
Qed.

Example calculateRetention_scenario3 :
  calculateRetention twoDays = Returns 50%float.
Proof. by []. Qed.

Example calculateRetention_one_day :
  calculateRetention [:: logged (js "2024-01-01 09:00:00") (js "a");
                         logged (js "2024-01-01 10:00:00") (js "b")]
  = Returns 0%float.
Proof. by []. Qed.

(** C6 fails on the code.  On a collection of one date, [constructor],
    [calculateRetention] throws instead of returning 0; and it throws as
    soon as any record has such a date. *)
Theorem calculateRetention_inherited_date :
  [/\ [seq datePart e | e <- [:: logged (js "constructor 09:15:00") (js "u1")]]
      = [:: js "constructor"],
      calculateRetention [:: logged (js "constructor 09:15:00") (js "u1")]
      = TypeError
    & calculateRetention (rcons twoDays (logged (js "__proto__ 1") (js "c")))
      = TypeError].
Proof. by []. Qed.

(** Any record whose date part names an inherited member makes
    [calculateRetention] throw. *)
Lemma calculateRetention_throws (data : seq SmmLogEntry) :
  ~~ datesSafe data -> calculateRetention data = TypeError.
Proof. by move=> H; rewrite /calculateRetention (retention_inherited H). Qed.

(** ** Summary *)

(** Apart from the names inherited from [Object.prototype],
    [getSummaryStats] returns, and its first three fields are what the
    specification says. *)
Lemma getSummaryStats_own_dates (data : seq SmmLogEntry) :
  datesSafe data ->
  exists s : AnalysisSummary,
    [/\ getSummaryStats data = Returns s,
        totalQueries s = size data,
        uniqueUsers s = size (undup [seq userId e | e <- data]),
        avgQueriesPerUser s = average (totalQueries s) (uniqueUsers s)
      & Returns (retentionRate s) = calculateRetention data].
Proof.
move=> Hs; have [Htrend _ _ _] := getDailyTrend_own_dates Hs.
have Hret := calculateRetention_own_dates Hs.
rewrite /getSummaryStats Htrend Hret.
by eexists; split; first by []; rewrite /= ?size_setOf.
Qed.

(** Any record whose date part names an inherited member makes
    [getSummaryStats] throw. *)
Lemma getSummaryStats_throws (data : seq SmmLogEntry) :
  ~~ datesSafe data -> getSummaryStats data = TypeError.
Proof.
move=> /calculateRetention_throws Hret; rewrite /getSummaryStats Hret.
by case: (getDailyTrend data).
Qed.

Example getSummaryStats_empty :
  getSummaryStats [::] = Returns (mkSummary 0 0 0%float 0%float NA NA).
Proof. by []. Qed.

Example getSummaryStats_twoDays :
  getSummaryStats twoDays
  = Returns (mkSummary 4 3 (PrimFloat.div 4%float 3%float) 50%float
                       (js "APP") (js "2024-01-01")).
Proof. by []. Qed.

(** C10 fails on the code.  On a collection with one record whose date
    part is [constructor], [getSummaryStats] throws: it returns no
    [totalQueries], [uniqueUsers] or [avgQueriesPerUser]. *)
Theorem getSummaryStats_inherited_date :
  getSummaryStats [:: logged (js "constructor 09:15:00") (js "u1")]
  = TypeError
  /\ getSummaryStats (rcons twoDays (logged (js "toString 09:15:00") [::]))
     = TypeError.
Proof. by []. Qed.

(** ** Instances of the theorems that have hypotheses *)

Lemma getHourlyStats_spec_witness :
  hourOf scenario1 = hourFrom (js "09:15:00").
Proof.
have [_ _ _ _ Hseg] := getHourlyStats_spec [:: scenario1].
have [_ Hone _] := Hseg scenario1 (js "2024-01-01") (js "09:15:00") erefl erefl.
exact: (Hone erefl).
Defined.

Lemma getTopCompanies_spec_witness :
  safe bucket board
  /\ getTopCompanies board
     = take 10 (sort byValueDesc
                  [seq (k, Num (members bucket board k))
                  | k <- keyOrder (seen bucket board)]).
Proof.
split; first by [].
have [Htop _ _ _ _] := getTopCompanies_spec (data := board) erefl.
exact: Htop.
Defined.

Example getTopCompanies_board :
  getTopCompanies board
  = [:: (js "阿里", Num 2); (js "360", Num 1); (INTERNAL_LABEL, Num 1)].
Proof. by []. Qed.

(** ** The scenarios of the specification *)

Example scenario1_views :
  [/\ getDailyTrend [:: scenario1] = Returns [:: mkTrend (js "2024-01-01") 1 1],
      nth (mkHourly [::] 0) (getHourlyStats [:: scenario1]) 9
      = mkHourly (js "9:00") 1
    & classifyIntents [:: scenario1]
      = [:: (js "闲聊/问候", Num 1); (js "行情/价格", Num 0);
            (js "趋势/预测", Num 0); (js "数据/库存", Num 0);
            (js "知识/百科", Num 0); (js "其他", Num 0)]].
Proof. by []. Qed.

Example scenario5_internal :
  [/\ isInternalUser (fromCompany (js "Smm Trading")),
      getUserTypeDistribution [:: fromCompany (js "Smm Trading")]
      = [:: (js "内部员工", Num 1)]
    & getTopCompanies [:: fromCompany (js "Smm Trading")]
      = [:: (INTERNAL_LABEL, Num 1)]].
Proof. by []. Qed.

(** ** Substrings *)

Lemma startsWithP s k : reflect (exists t, s = k ++ t) (startsWith s k).
Proof.
elim: k s => [|a k IH] [|b s] /=.
- by left; exists [::].
- by left; exists (b :: s).
- by right; case.
- case: eqP => [->|ne] /=.
    apply: (iffP (IH s)) => [[t ->]|[t [->]]]; by exists t.
  by right; case=> t [] /esym.
Qed.

Lemma includes_cons c s k :
  includes (c :: s) k = startsWith (c :: s) k || includes s k.
Proof. by []. Qed.

Lemma includesP s k : reflect (exists p t, s = p ++ k ++ t) (includes s k).
Proof.
elim: s => [|c s IH]; last rewrite includes_cons.
  case: k => [|a k]; first by left; exists [::], [::].
  by right; case=> p [t]; case: p.
apply: (iffP orP) => [[/startsWithP [t ->]|/IH [p [t ->]]]|[[|x p] [t E]]].
- by exists [::], t.
- by exists (c :: p), t.
- by left; apply/startsWithP; exists t.
- by right; apply/IH; exists p, t; case: E.
Qed.

Lemma includes_trans b s a : includes s b -> includes b a -> includes s a.
Proof.
move=> /includesP [p [t ->]] /includesP [p' [t' ->]].
by apply/includesP; exists (p ++ p'), (t' ++ t); rewrite -!catA.
Qed.

Lemma includes_map (f : N -> N) s k :
  includes s k -> includes (map f s) (map f k).
Proof.
move=> /includesP [p [t ->]]; apply/includesP.
by exists (map f p), (map f t); rewrite !map_cat.
Qed.

Lemma includes_refl s : includes s s.
Proof. by apply/includesP; exists [::], [::]; rewrite cats0. Qed.

Lemma startsWith_sep c a b k :
  c \notin k -> startsWith (a ++ c :: b) k = startsWith a k.
Proof.
elim: a k => [|y a IH] [|x k] //=; rewrite inE negb_or => /andP [ne Hk].
  by rewrite eq_sym (negbTE ne).
by rewrite IH.
Qed.

(** A text without the separator does not straddle it. *)
Lemma includes_sep c a b k :
  c \notin k -> includes (a ++ c :: b) k = includes a k || includes b k.
Proof.
move=> Hk; elim: a => [|y a IH].
  have -> : includes ([::] ++ c :: b) k
            = startsWith ([::] ++ c :: b) k || includes b k by [].
  by rewrite startsWith_sep //= orbF.
by rewrite cat_cons !includes_cons -cat_cons startsWith_sep // IH orbA.
Qed.

(** The trimmed text is a part of the text. *)
Lemma includes_trim s : includes s (trim s).
Proof.
have [p Hp] := trimStart_suffix s.
have [q Hq] := trimStart_suffix (rev (trimStart s)).
apply/includesP; exists p, (rev q).
by rewrite -rev_cat -Hq revK.
Qed.

(** ** Internal users, field by field *)

Lemma join4 (a b c d : jsstring) :
  join (js " ") [:: a; b; c; d] = a ++ SPACE :: b ++ SPACE :: c ++ SPACE :: d.
Proof. by []. Qed.

Lemma includes_lower_sep a b k :
  SPACE \notin k ->
  includes (toLowerCase (a ++ SPACE :: b)) k
  = includes (toLowerCase a) k || includes (toLowerCase b) k.
Proof.
by move=> Hk; rewrite /toLowerCase map_cat map_cons -[lowerUnit SPACE]/SPACE
                      includes_sep.
Qed.

Lemma includes_identity (e : SmmLogEntry) k :
  SPACE \notin k ->
  includes (toLowerCase (join (js " ") [:: company e; userName e;
                                          nickname e; email e])) k
  = has (fun field => includes (toLowerCase field) k)
        [:: company e; userName e; nickname e; email e].
Proof. by move=> Hk; rewrite join4 !includes_lower_sep //= orbF. Qed.

Lemma isInternalUserE (e : SmmLogEntry) :
  isInternalUser e
  = has mentionsSMM [:: company e; userName e; nickname e; email e].
Proof.
have H1 : SPACE \notin js "smm" by [].
have H2 : SPACE \notin js "上海有色网" by [].
rewrite /isInternalUser [has _ [:: js "smm"; _]]/= orbF.
rewrite (includes_identity e H1) (includes_identity e H2) /mentionsSMM /= !orbF.
by case: (includes _ _); case: (includes _ _); case: (includes _ _);
   case: (includes _ _); case: (includes _ _); case: (includes _ _);
   case: (includes _ _); case: (includes _ _).
Qed.

(** X1.  A record is internal exactly when one of its four identity fields,
    taken alone and lower-cased, includes [smm] or [上海有色网]: a keyword
    never matches across two fields, and no other field is read. *)
Theorem isInternalUser_fields (e : SmmLogEntry) :
  isInternalUser e
  = has mentionsSMM [:: company e; userName e; nickname e; email e].
Proof. exact: isInternalUserE. Qed.

(** ** Ingestion: rows and records *)

Lemma normalizeRow_rowOf e :
  normalizeRow (rowOf e)
  = mkEntry (trim (questionId e)) (trim (content e)) (trim (time e))
            (trim (source e)) (trim (userId e)) (trim (company e))
            (trim (userName e)) (trim (nickname e)) (trim (email e))
            (trim (feedbackStatus e)) (trim (feedbackContent e)).
Proof.
rewrite normalizeRowE.
have H k : rowGet (rowOf e) (nth [::] headers k)
           = nth None [seq Some (getField f e) | f <- fields] k.
  by do 11![case: k => [|k]; first by vm_compute]; case: k.
rewrite (H 0) (H 1) (H 2) (H 3) (H 4) (H 5) (H 6) (H 7) (H 8) (H 9) (H 10).
by rewrite !cellTextE.
Qed.

Lemma normalizeRow_trimmed row : trimmed (normalizeRow row).
Proof. by rewrite normalizeRowE /trimmed /= !cellTextE !trim_idem !eqxx. Qed.

Lemma rowOf_trimmed e : trimmed e -> normalizeRow (rowOf e) = e.
Proof.
rewrite normalizeRow_rowOf /trimmed /=; case: e => q c t s u co un ni em fs fc.
rewrite /= andbT.
by do 10![case/andP=> /eqP->] => /eqP->.
Qed.

(** X2.  The records that [parseCSV] returns have every field trimmed, and
    writing them out under the eleven headers and parsing the rows again
    gives the same records. *)
Theorem parseCSV_round_trip (data : seq rawRow) :
  all trimmed (parseCSV data)
  /\ parseCSV [seq rowOf e | e <- parseCSV data] = parseCSV data.
Proof.
split.
  rewrite /parseCSV all_filter; apply/allP=> e /mapP [row _ ->].
  by rewrite /= normalizeRow_trimmed implybT.
elim: data => [|row data IH] //.
rewrite /parseCSV /=; case Hreq: (hasRequired _) => //=.
by rewrite (rowOf_trimmed (normalizeRow_trimmed row)) Hreq -/(parseCSV _) IH.
Qed.

Lemma rowGet_mapped (row : rawRow) h :
  h \in headers -> rowGet [seq c <- row | c.1 \in headers] h = rowGet row h.
Proof.
move=> Hh; elim: row => [|[h0 v] row IH] //=.
case H0: (h0 \in headers) => /=; first by rewrite IH.
by case: eqP => [E|_] //; rewrite E Hh in H0.
Qed.

Lemma normalizeRow_mapped (row : rawRow) :
  normalizeRow [seq c <- row | c.1 \in headers] = normalizeRow row.
Proof.
by rewrite !normalizeRowE !rowGet_mapped.
Qed.

(** X3.  [parseCSV] reads the eleven mapped columns only: the rows and the
    rows without their other columns give the same records. *)
Theorem parseCSV_mapped_columns (data : seq rawRow) :
  parseCSV [seq [seq c <- row | c.1 \in headers] | row <- data]
  = parseCSV data.
Proof.
rewrite /parseCSV -map_comp; congr filter.
by apply: eq_map => row; apply: normalizeRow_mapped.
Qed.

(** ** The daily trend on every input *)

Lemma trendStep_inherited stats e :
  own stats (datePart e) = None -> inherited (datePart e) ->
  trendStep (Returns stats) e
  = if userId e is [::] then Returns stats else TypeError.
Proof.
rewrite /trendStep; case: (datePart e) => [|c r] // Hown.
rewrite /inherited /ensure /get Hown.
case Hm: (_ \in protoMethods) => /=; first by rewrite Hown.
by move=> ->; rewrite /= Hown.
Qed.

Lemma datesSafe_plain data : datesSafe (plainDates data).
Proof. by rewrite /datesSafe /plainDates all_filter; apply/allP=> e _; apply: implybb. Qed.

Lemma plainDates_rcons data e :
  plainDates (rcons data e)
  = if inherited (datePart e) then plainDates data
    else rcons (plainDates data) e.
Proof. by rewrite /plainDates filter_rcons; case: (inherited _). Qed.

Lemma own_folded_inherited data e :
  inherited (datePart e) ->
  own (folded dateLabel (mkDay 0 [::]) dayUpdate (plainDates data)) (datePart e)
  = None.
Proof.
move=> Hinh; rewrite /folded own_table; case Hin: (_ \in _) => //.
move: Hin; rewrite mem_setOf mem_pmap => /mapP [e' He' Ed].
move: He'; rewrite mem_filter => /andP [He' _].
move: Ed He'; rewrite /dateLabel; case: (datePart e') => // c r [E].
by rewrite -E Hinh.
Qed.

Lemma trend_fold_plain data :
  ~~ has breaksTrend data ->
  foldl trendStep (Returns [::]) data
  = Returns (folded dateLabel (mkDay 0 [::]) dayUpdate (plainDates data)).
Proof.
elim/last_ind: data => [|data e IH] //.
rewrite has_rcons negb_or => /andP [He /IH {}IH].
rewrite foldl_rcons IH plainDates_rcons.
case Hinh: (inherited (datePart e)); last first.
  have Hs : datesSafe (rcons (plainDates data) e).
    by rewrite /datesSafe all_rcons Hinh /=; apply: datesSafe_plain.
  by rewrite -(trend_fold Hs) foldl_rcons (trend_fold (datesSafe_plain data)).
rewrite (trendStep_inherited (own_folded_inherited data Hinh) Hinh).
by move: He; rewrite /breaksTrend Hinh /=; case: (userId e).
Qed.

Lemma trend_fold_breaks data :
  has breaksTrend data -> foldl trendStep (Returns [::]) data = TypeError.
Proof.
elim/last_ind: data => [|data e IH] //.
rewrite has_rcons foldl_rcons.
case Hb: (has breaksTrend data); first by rewrite IH // orbT.
rewrite orbF trend_fold_plain ?Hb // => /andP [Hinh Hu].
rewrite (trendStep_inherited (own_folded_inherited data Hinh) Hinh).
by case: (userId e) Hu.
Qed.

Lemma datesOf_plain data :
  datesOf (plainDates data) = [seq d <- datesOf data | ~~ inherited d].
Proof.
rewrite /datesOf /plainDates (filter_sort strLeq_total strLeq_trans).
rewrite filter_undup filter_map -!filter_predI.
by congr (sort _ (undup (map _ _))); apply: eq_filter => e /=; rewrite andbC.
Qed.

Lemma trendOf_plain data d :
  ~~ inherited d -> trendOf (plainDates data) d = trendOf data d.
Proof.
move=> Hd; rewrite /trendOf /plainDates count_filter -filter_predI.
congr (mkTrend _ _ _).
  by apply: eq_count => e /=; case: eqP => // ->; rewrite Hd.
congr (size (undup (map _ _))).
by apply: eq_filter => e /=; case: eqP => // ->; rewrite Hd andbT.
Qed.

Lemma getDailyTrendE (data : seq SmmLogEntry) :
  getDailyTrend data
  = if has breaksTrend data then TypeError
    else Returns [seq trendOf data d | d <- datesOf data & ~~ inherited d].
Proof.
case Hb: (has breaksTrend data).
  by rewrite /getDailyTrend trend_fold_breaks.
have -> : getDailyTrend data = getDailyTrend (plainDates data).
  rewrite /getDailyTrend trend_fold_plain ?Hb //.
  by rewrite (trend_fold (datesSafe_plain data)).
have [-> _ _ _] := getDailyTrend_own_dates (datesSafe_plain data).
rewrite datesOf_plain; congr Returns; apply/eq_in_map => d.
by rewrite mem_filter => /andP [Hd _]; apply: trendOf_plain.
Qed.

(** X4.  On every input [getDailyTrend] throws exactly when a record has a
    user and a date part that names an inherited member; otherwise it
    returns, in ascending order, one entry for each distinct date part that
    is neither empty nor such a name. *)
Theorem getDailyTrend_every_input (data : seq SmmLogEntry) :
  getDailyTrend data
  = if has breaksTrend data then TypeError
    else Returns [seq trendOf data d | d <- datesOf data & ~~ inherited d].
Proof. exact: getDailyTrendE. Qed.

Lemma breaksTrend_unsafe data : has breaksTrend data -> ~~ datesSafe data.
Proof.
move=> /hasP [e He /andP [Hinh _]]; apply/negP => /allP /(_ e He).
by rewrite Hinh.
Qed.

(** X5.  [calculateRetention] and [getSummaryStats] throw exactly when some
    record has a date part that names an inherited member, with or
    without a user; so they throw on every input on which [getDailyTrend]
    throws, and on others. *)
Theorem summary_throws (data : seq SmmLogEntry) :
  [/\ thrown (calculateRetention data) = ~~ datesSafe data,
      thrown (getSummaryStats data) = ~~ datesSafe data,
      thrown (getDailyTrend data) = has breaksTrend data
    & has breaksTrend data ==> ~~ datesSafe data].
Proof.
split.
- case Hs: (datesSafe data); first by rewrite (calculateRetention_own_dates Hs).
  by rewrite calculateRetention_throws ?Hs.
- case Hs: (datesSafe data); last by rewrite getSummaryStats_throws ?Hs.
  by have [s [-> _ _ _ _]] := getSummaryStats_own_dates Hs.
- by rewrite getDailyTrendE; case: (has _ _).
- by apply/implyP; apply: breaksTrend_unsafe.
Qed.

(** X6.  On every input [calculateRetention] throws when some record has a
    date part that names an inherited member; otherwise it returns 0 when
    fewer than two distinct date parts occur, the empty one included, and
    else a hundred times the mean, over the consecutive dates whose first
    has a user, of the share of the users of the first date that are users
    of the second. *)
Theorem calculateRetention_every_input (data : seq SmmLogEntry) :
  calculateRetention data
  = if datesSafe data
    then Returns (if size (retentionDates data) < 2 then 0%float
                  else meanPercent (ratios [seq dayUsers data d
                                           | d <- retentionDates data]))
    else TypeError.
Proof.
case Hs: (datesSafe data); first exact: calculateRetention_own_dates.
by apply: calculateRetention_throws; rewrite Hs.
Qed.

Lemma mem_datesOf data d :
  (d \in datesOf data) = (d != [::]) && has (fun e => datePart e == d) data.
Proof.
rewrite mem_sort mem_undup; apply/mapP/andP => [[e]|[Hd /hasP [e He /eqP E]]].
  by rewrite mem_filter => /andP [Hne He] ->; split=> //; apply/hasP; exists e.
by exists e; rewrite ?mem_filter ?E ?Hd.
Qed.

(** X7.  Whenever [getDailyTrend] returns, every entry has at least one
    query and no more active users than queries, the dates are in
    ascending order without repetition, and the queries add up to the
    number of records whose date part is neither empty nor the name of an
    inherited member. *)
Theorem getDailyTrend_invariants (data : seq SmmLogEntry)
                                 (trends : seq DailyTrend) :
  getDailyTrend data = Returns trends ->
  [/\ all (fun t => (0 < queries t) && (dau t <= queries t)) trends,
      sorted strLeq [seq date t | t <- trends],
      uniq [seq date t | t <- trends]
    & sumn [seq queries t | t <- trends]
      = count (fun e => (datePart e != [::]) && ~~ inherited (datePart e))
              data].
Proof.
rewrite getDailyTrendE; case: (has _ _) => // [[<-]].
set ds := [seq d <- datesOf data | ~~ inherited d].
have Hdates : [seq date t | t <- [seq trendOf data d | d <- ds]] = ds.
  by rewrite -map_comp map_id.
have Hu : uniq ds by rewrite filter_uniq // sort_uniq undup_uniq.
split.
- rewrite all_map; apply/allP => d; rewrite mem_filter mem_datesOf.
  case/and3P => _ _ Hd /=; rewrite -has_count Hd /=.
  apply: leq_trans (size_undup _) _; rewrite size_map size_filter.
  by apply: sub_count => e /= /andP [].
- rewrite Hdates; apply: sorted_filter; first exact: strLeq_trans.
  exact: sort_sorted strLeq_total _.
- by rewrite Hdates.
- rewrite -map_comp.
  have -> : map (queries \o trendOf data) ds
            = [seq count (fun e => datePart e == d) data | d <- ds].
    exact: eq_map.
  rewrite (sum_counts datePart data Hu); apply: eq_in_count => e He.
  rewrite mem_filter mem_datesOf andbC -andbA; congr (_ && _).
  case Hinh: (inherited _); first by rewrite andbF.
  by rewrite andbT; apply/hasP; exists e.
Qed.

Lemma getDailyTrend_invariants_witness :
  getDailyTrend twoDays
  = Returns [:: mkTrend (js "2024-01-01") 2 2; mkTrend (js "2024-01-02") 2 2]
  /\ sumn [seq queries t
          | t <- [:: mkTrend (js "2024-01-01") 2 2;
                     mkTrend (js "2024-01-02") 2 2]]
     = count (fun e => (datePart e != [::]) && ~~ inherited (datePart e))
             twoDays.
Proof.
split; first by [].
by have [_ _ _] := getDailyTrend_invariants (data := twoDays) erefl.
Defined.

(** ** The first element of a stable sort *)

Section StableHead.

Variables (T : eqType) (leT leT' : rel T).
Hypothesis leT_total : total leT.
Hypothesis leT_trans : transitive leT.
Hypothesis leT'_trans : transitive leT'.
Hypothesis leT'_refl : reflexive leT'.

(** The head of [sort leT s] is least for [leT], and among the elements
    that are as small it is the first for the order [leT'] in which [s]
    stood. *)
Lemma sort_head x s s' :
  sorted leT' s -> sort leT s = x :: s' ->
  x \in s /\ forall y, y \in s -> leT x y && (leT y x ==> leT' x y).
Proof.
move=> Hs E; split; first by rewrite -(mem_sort leT) E mem_head.
pose lex := [rel x y | leT x y && (leT y x ==> leT' x y)].
have lex_trans : transitive lex.
  move=> b a c /= /andP [Hab Hba] /andP [Hbc Hcb].
  rewrite (leT_trans Hab Hbc) /=; apply/implyP => Hca.
  have Hcb' := leT_trans Hca Hab; have Hba' := leT_trans Hbc Hca.
  by apply: leT'_trans (implyP Hcb Hcb'); apply: (implyP Hba).
have := sort_stable leT_total leT'_trans Hs; rewrite E /= => Hp.
move=> y; rewrite -(mem_sort leT) E inE => /orP [/eqP ->|Hy].
  by rewrite leT'_refl implybT andbT; have := leT_total x x; rewrite orbb.
exact: (allP (order_path_min lex_trans Hp)).
Qed.

End StableHead.

Lemma strLeq_refl : reflexive strLeq.
Proof. by move=> a; have := strLeq_total a a; rewrite orbb. Qed.

(** ** The leaders of the summary *)

Lemma getSummaryStats_safe data s :
  getSummaryStats data = Returns s -> datesSafe data.
Proof.
by case Hs: (datesSafe data) => //; rewrite getSummaryStats_throws ?Hs.
Qed.

(** X8.  The busiest day of the summary is a date with the greatest number
    of queries, the earliest one when several dates have that number; it
    is [N/A] when no record has a date. *)
Theorem getSummaryStats_busiestDay (data : seq SmmLogEntry)
                                   (s : AnalysisSummary) :
  getSummaryStats data = Returns s ->
  let q d := count (fun e => datePart e == d) data in
  if datesOf data is [::] then busiestDay s = NA
  else busiestDay s \in datesOf data
       /\ forall d, d \in datesOf data ->
            (q d <= q (busiestDay s))
            && ((q (busiestDay s) <= q d) ==> strLeq (busiestDay s) d).
Proof.
move=> E q; have Hs := getSummaryStats_safe E.
have [Htrend Hsorted _ _] := getDailyTrend_own_dates Hs.
have Hret := calculateRetention_own_dates Hs.
move: E; rewrite /getSummaryStats Htrend Hret => [[<-]] /=.
rewrite sort_map.
case E: (sort _ (datesOf data)) => [|x s'].
  by move/(congr1 size): E; rewrite size_sort; case: (datesOf data).
have [Hx Hmin] := sort_head (leT := relpre (trendOf data)
                                      (fun a b => queries b <= queries a))
                    (fun a b => leq_total _ _)
                    (fun b a c Hab Hbc => leq_trans Hbc Hab)
                    strLeq_trans strLeq_refl Hsorted E.
have -> : (if date (trendOf data x) is [::] then NA else date (trendOf data x))
          = x.
  by move: Hx; rewrite mem_datesOf /=; case: (x).
by case: (datesOf data) Hx Hmin.
Qed.

Lemma getSummaryStats_busiestDay_witness :
  getSummaryStats twoDays
  = Returns (mkSummary 4 3 (PrimFloat.div 4%float 3%float) 50%float
                       (js "APP") (js "2024-01-01"))
  /\ js "2024-01-01" \in datesOf twoDays.
Proof.
split; first by [].
have H := getSummaryStats_busiestDay (data := twoDays) erefl.
exact: (proj1 H).
Defined.

Lemma sourceLabel_nonempty e : sourceLabel e != [::].
Proof. by rewrite /sourceLabel; case: (source e). Qed.

(** X9.  When no source label is the name of an inherited member, the top
    source of the summary is a label with the greatest number of records,
    the first one in the order of [Object.keys] when several labels have
    that number; it is [N/A] when there is no record. *)
Theorem getSummaryStats_topSource (data : seq SmmLogEntry)
                                  (s : AnalysisSummary) :
  all (fun e => ~~ inherited (sourceLabel e)) data ->
  getSummaryStats data = Returns s ->
  let q k := count (fun e => sourceLabel e == k) data in
  let ks := keyOrder (setOf [seq sourceLabel e | e <- data]) in
  if data is [::] then topSource s = NA
  else topSource s \in ks
       /\ forall k, k \in ks ->
            (q k <= q (topSource s))
            && ((q (topSource s) <= q k)
                ==> (index (topSource s) ks <= index k ks)).
Proof.
move=> Hlab E q ks; have Hs := getSummaryStats_safe E.
have [Htrend _ _ _] := getDailyTrend_own_dates Hs.
have Hret := calculateRetention_own_dates Hs.
have [Hsrc _] := getSourceDistribution_own_labels Hlab.
move: E; rewrite /getSummaryStats Htrend Hret Hsrc => [[<-]] /=.
rewrite -/ks sort_map.
have Hu : uniq ks by rewrite uniq_keyOrder uniq_setOf.
case E: (sort _ ks) => [|x s'].
  move/(congr1 size): E; rewrite size_sort (perm_size (perm_keyOrder _)).
  case: (data) => //= e data'; rewrite size_setOf.
  have := mem_undup (sourceLabel e :: map sourceLabel data') (sourceLabel e).
  by rewrite mem_head; case: (undup _).
have [Hx Hmin] := sort_head (leT := relpre (fun k => (k, Num (q k))) byValueDesc)
                    (leT' := fun a b => index a ks <= index b ks)
                    (fun a b => leq_total _ _)
                    (fun b a c Hab Hbc => leq_trans Hbc Hab)
                    (fun b a c => @leq_trans _ _ _)
                    (fun a => leqnn _)
                    (pairwise_sorted (pairwise_index Hu)) E.
have -> : (if x is [::] then NA else x) = x.
  move: Hx; rewrite mem_keyOrder mem_setOf => /mapP [e _ ->].
  by case: (sourceLabel e) (sourceLabel_nonempty e).
case Ed: data => [|e data']; first by move: Hx; rewrite /ks Ed.
by split=> // k /Hmin.
Qed.

Lemma getSummaryStats_topSource_witness :
  getSummaryStats twoDays
  = Returns (mkSummary 4 3 (PrimFloat.div 4%float 3%float) 50%float
                       (js "APP") (js "2024-01-01"))
  /\ js "APP" \in keyOrder (setOf [seq sourceLabel e | e <- twoDays]).
Proof.
split; first by [].
have H := getSummaryStats_topSource (data := twoDays) isT erefl.
exact: (proj1 H).
Defined.

(** ** Counters under every name *)

Lemma held_succ k n :
  match held k n with
  | Num m => Num m.+1
  | NaN => Num 1
  | Str m i => Str m i.+1
  end = held k n.+1.
Proof. by rewrite /held; case: (k \in protoMethods). Qed.

Lemma bump_held ks (f : jsstring -> nat) k :
  uniq ks -> (k != PROTO -> k \notin ks -> f k = 0) ->
  bump (table ks (fun x => held x (f x))) k
  = if (k == PROTO) && (k \notin ks) then table ks (fun x => held x (f x))
    else table (setAdd ks k) (fun x => held x (f x + (x == k))).
Proof.
move=> Hu Hf; rewrite /bump /get own_table /setAdd.
case Hin: (k \in ks) => /=.
  rewrite andbF -[held k (f k)]/(held k (f k)).
  have -> : match held k (f k) with
            | Num n => define (table ks (fun x => held x (f x))) k (Num n.+1)
            | NaN => define (table ks (fun x => held x (f x))) k (Num 1)
            | Str m n => define (table ks (fun x => held x (f x))) k (Str m n.+1)
            end
            = define (table ks (fun x => held x (f x))) k (held k (f k).+1).
    by rewrite -held_succ; case: (held k (f k)).
  rewrite define_table //; apply: eq_table => x _.
  by case E: (x == k); rewrite ?addn0 // (eqP E) addn1.
rewrite andbT.
have Hnew : k \notin ks by rewrite Hin.
have Hfresh v : k != PROTO -> v = held k 1 ->
    define (table ks (fun x => held x (f x))) k v
    = table (rcons ks k) (fun x => held x (f x + (x == k))).
  move=> Hp ->; rewrite define_table_fresh // rcons_table //.
  apply: eq_table => x Hx; case E: (x == k); last by rewrite addn0.
  by rewrite (eqP E) (Hf Hp Hnew).
case Hm: (k \in protoMethods).
  have Hp : k != PROTO by apply/eqP => E; rewrite E in Hm.
  by rewrite (negbTE Hp) /=; apply: Hfresh => //; rewrite /held Hm.
case Hp: (k == PROTO) => //=.
by apply: Hfresh; rewrite ?Hp // /held Hm.
Qed.

Section EveryBucket.

Variable lab : SmmLogEntry -> option jsstring.

Lemma proto_unlisted data : PROTO \notin listed lab data.
Proof. by rewrite /listed mem_setOf mem_filter eqxx. Qed.

Lemma mem_listed data k :
  (k \in listed lab data) = (k != PROTO) && (k \in seen lab data).
Proof. by rewrite /listed /seen !mem_setOf mem_filter. Qed.

Lemma listed_rcons data e :
  listed lab (rcons data e)
  = if lab e is Some k
    then (if k == PROTO then listed lab data else setAdd (listed lab data) k)
    else listed lab data.
Proof.
rewrite /listed -cats1 pmap_cat filter_cat /=; case: (lab e) => [k|] /=.
  by case: (k == PROTO) => /=; rewrite ?cats0 // cats1 setOf_rcons.
by rewrite cats0.
Qed.

Lemma members_rcons data e x :
  members lab (rcons data e) x = members lab data x + (lab e == Some x).
Proof. by rewrite /members -cats1 count_cat /= addn0. Qed.

(** The counter object on every input. *)
Lemma grouped_every data :
  grouped lab data
  = table (listed lab data) (fun k => held k (members lab data k)).
Proof.
elim/last_ind: data => [|data e IH] //.
rewrite /grouped foldl_rcons -/(grouped lab data) IH listed_rcons.
case E: (lab e) => [k|]; last first.
  by apply: eq_table => x _; rewrite members_rcons E addn0.
have Hu : uniq (listed lab data) by exact: uniq_setOf.
have Hf : k != PROTO -> k \notin listed lab data -> members lab data k = 0.
  by move=> Hp Hk; apply: members_unseen; move: Hk; rewrite mem_listed Hp.
rewrite (bump_held Hu Hf).
case Hp: (k == PROTO).
  move/eqP: Hp E => -> E; rewrite proto_unlisted /=.
  apply: eq_table => x Hx; rewrite members_rcons E.
  case Ex: (Some PROTO == Some x); last by rewrite addn0.
  by move: Hx; case/eqP: Ex => <-; rewrite (negbTE (proto_unlisted data)).
apply: eq_table => x _.
by rewrite members_rcons E [Some k == _]eq_sym.
Qed.

End EveryBucket.

(** ** The source distribution on every input *)

Lemma sumn_held (q : jsstring -> nat) ks :
  sumn [seq countOf (held k (q k)) | k <- ks]
  = sumn [seq q k | k <- ks & k \notin protoMethods].
Proof.
elim: ks => [|k ks IH] //=; rewrite IH /held.
by case: (k \in protoMethods).
Qed.

(** X10.  On every input the source distribution has one entry for each
    distinct label other than [__proto__], in the order of [Object.keys];
    the value is the number of records with the label, as a count, or as
    the text of the method followed by that many [1] when the label names
    an inherited method; and the counts add up to the number of records
    whose label is not an inherited name. *)
Theorem getSourceDistribution_every_input (data : seq SmmLogEntry) :
  getSourceDistribution data
  = [seq (k, held k (count (fun e => sourceLabel e == k) data))
    | k <- keyOrder (setOf [seq sourceLabel e
                           | e <- data & sourceLabel e != PROTO])]
  /\ valueSum (getSourceDistribution data)
     = count (fun e => ~~ inherited (sourceLabel e)) data.
Proof.
have Hlab : pmap (fun e => Some (sourceLabel e)) data
            = [seq sourceLabel e | e <- data] by exact: pmap_total.
have E : getSourceDistribution data
  = [seq (k, held k (count (fun e => sourceLabel e == k) data))
    | k <- keyOrder (setOf [seq sourceLabel e
                           | e <- data & sourceLabel e != PROTO])].
  rewrite getSourceDistributionE grouped_every entries_table /listed Hlab.
  by rewrite filter_map.
split=> //; rewrite E /valueSum -map_comp.
set ks := keyOrder _.
have -> : map ((fun nv : jsstring * jsvalue => countOf nv.2)
               \o (fun k => (k, held k (count (fun e => sourceLabel e == k)
                                              data)))) ks
          = [seq countOf (held k (count (fun e => sourceLabel e == k) data))
            | k <- ks] by exact: eq_map.
rewrite sumn_held.
have Hu : uniq [seq k <- ks | k \notin protoMethods].
  by rewrite filter_uniq // uniq_keyOrder uniq_setOf.
rewrite (sum_counts sourceLabel data Hu); apply: eq_in_count => e He.
rewrite mem_filter mem_keyOrder mem_setOf /inherited negb_or; congr (_ && _).
apply/mapP/idP => [[e' ]|Hp]; first by rewrite mem_filter => /andP [Hp _] ->.
by exists e; rewrite ?mem_filter ?Hp.
Qed.

(** ** The names on the company board *)

Lemma mentionsSMM_trim c : mentionsSMM (trim c) -> mentionsSMM c.
Proof.
move=> /hasP [k Hk Hinc]; apply/hasP; exists k => //.
apply: includes_trans Hinc; apply: includes_map; exact: includes_trim.
Qed.

Lemma external_company e : ~~ isInternalUser e -> ~~ mentionsSMM (trim (company e)).
Proof.
rewrite isInternalUserE /= negb_or => /andP [Hc _].
by apply: contra Hc; apply: mentionsSMM_trim.
Qed.

Lemma bucket_internal e : (bucket e == Some INTERNAL_LABEL) = isInternalUser e.
Proof.
rewrite /bucket; case Hi: (isInternalUser e); first by rewrite eqxx.
have := external_company (negbT Hi).
case: (trim (company e)) => [|c r] // Hm.
apply/negbTE/negP => /eqP E.
have {}E : c :: r = INTERNAL_LABEL by exact: Some_inj.
by move: Hm; rewrite E.
Qed.

Lemma bucket_listed data k :
  k \in listed bucket data ->
  (k == INTERNAL_LABEL) || [&& k != [::], trim k == k & ~~ mentionsSMM k].
Proof.
rewrite mem_listed /seen mem_setOf mem_pmap => /andP [_ /mapP [e _]].
rewrite /bucket; case Hi: (isInternalUser e); first by case=> ->; rewrite eqxx.
have := external_company (negbT Hi).
case E: (trim (company e)) => [|c r] // Hm [->].
by rewrite -E trim_idem eqxx E Hm /= orbT.
Qed.

(** X11.  No name stands twice on the company board; a name other than the
    internal label is a company name that is not empty, is trimmed and,
    lower-cased, includes neither [smm] nor [上海有色网]; and the internal
    label, when it is on the board, carries the number of internal
    records. *)
Theorem getTopCompanies_names (data : seq SmmLogEntry) :
  [/\ uniq [seq nv.1 | nv <- getTopCompanies data],
      all (fun nv => (nv.1 == INTERNAL_LABEL)
                     || [&& nv.1 != [::], trim nv.1 == nv.1
                          & ~~ mentionsSMM nv.1])
          (getTopCompanies data)
    & all (fun nv => (nv.1 == INTERNAL_LABEL)
                     ==> (nv.2 == Num (count isInternalUser data)))
          (getTopCompanies data)].
Proof.
rewrite getTopCompaniesE grouped_every entries_table.
set tbl := table _ _.
have Hmem nv : nv \in take 10 (sort byValueDesc tbl) ->
    exists2 k, k \in listed bucket data
             & nv = (k, held k (members bucket data k)).
  move=> /mem_take; rewrite mem_sort => /mapP [k Hk ->].
  by exists k => //; rewrite -mem_keyOrder.
split.
- rewrite map_take; apply: take_uniq.
  rewrite (perm_uniq (perm_map _ (permEl (perm_sort _ _)))).
  by rewrite -/(names tbl) names_table uniq_keyOrder uniq_setOf.
- by apply/allP => nv /Hmem [k Hk ->] /=; apply: bucket_listed Hk.
- apply/allP => nv /Hmem [k Hk ->] /=; apply/implyP => /eqP ->.
  rewrite /held /members /=.
  by apply/eqP; congr Num; apply: eq_count => e; apply: bucket_internal.
Qed.

(** ** Terms that contain other terms *)

Lemma occurrences_part data a b :
  includes b a -> occurrences data b <= occurrences data a.
Proof.
by move=> Hab; apply: sub_count => e /= Hb; apply: includes_trans Hb Hab.
Qed.

Lemma mem_occurring terms data t n :
  ((t, Num n) \in occurring terms data)
  = [&& t \in terms, 0 < n & n == occurrences data t].
Proof.
apply/mapP/and3P => [[t' ]|[Ht Hn /eqP E]].
  by rewrite mem_filter => /andP [Hpos Ht'] [-> ->].
by exists t; rewrite ?mem_filter -?E ?Hn.
Qed.

(** X12.  A record that mentions a metal term is counted for every metal
    term that is a part of it: when [碳酸锂] is listed with a count, [锂] is
    listed with a count that is not smaller. *)
Theorem getMetalDistribution_parts (data : seq SmmLogEntry)
                                   (a b : jsstring) (n : nat) :
  a \in metals -> includes b a ->
  (b, Num n) \in getMetalDistribution data ->
  exists2 m, n <= m & (a, Num m) \in getMetalDistribution data.
Proof.
move=> Ha Hab; rewrite getMetalDistributionE !mem_sort mem_occurring.
case/and3P => _ Hn /eqP E; exists (occurrences data a).
  by rewrite E; apply: occurrences_part.
rewrite mem_sort mem_occurring Ha eqxx andbT /=.
by apply: leq_trans Hn _; rewrite E; apply: occurrences_part.
Qed.

Lemma getMetalDistribution_parts_witness :
  exists2 m, 1 <= m
           & (js "锂", Num m)
               \in getMetalDistribution [:: asking (js "碳酸锂价格")].
Proof.
apply: (getMetalDistribution_parts (b := js "碳酸锂")); by vm_compute.
Defined.

(** ** Intents and letter case *)

Lemma upperUnit_idem c : upperUnit (upperUnit c) = upperUnit c.
Proof.
rewrite {2 3}/upperUnit; case H: (N.leb 97 c && N.leb c 122) => //.
  case/andP: H => /N.leb_le H1 /N.leb_le H2; rewrite /upperUnit.
  have -> : N.leb 97 (N.sub c 32) = false by apply/N.leb_gt; lia.
  by [].
by rewrite /upperUnit H.
Qed.

Lemma test_folded re s s' :
  map upperUnit s = map upperUnit s' -> test re s = test re s'.
Proof. by case: re => [alts|] // E; rewrite /test E. Qed.

Lemma firstMatch_folded tbl s s' :
  map upperUnit s = map upperUnit s' -> firstMatch tbl s = firstMatch tbl s'.
Proof.
move=> E; elim: tbl => [|[k re] tbl IH] //=.
by rewrite (test_folded re E) IH.
Qed.

Lemma foldl_key (A B K : Type) (F : A -> K -> A) (key : B -> K) (z : A) s :
  foldl (fun a x => F a (key x)) z s = foldl F z (map key s).
Proof. by elim: s z => [|x s IH] z //=. Qed.

(** X13.  The intent counts depend on the records only through their
    contents, and on the contents only up to the case of the letters a to
    z: two logs whose contents agree record by record after case folding
    get the same counts. *)
Theorem classifyIntents_letter_case (data data' : seq SmmLogEntry) :
  [seq map upperUnit (content e) | e <- data]
  = [seq map upperUnit (content e) | e <- data'] ->
  classifyIntents data = classifyIntents data'.
Proof.
move=> E; rewrite /classifyIntents; congr entries.
pose F (c : object jsvalue) (ko : option jsstring) :=
  if ko is Some key then increment c key else increment c OTHER.
rewrite !(foldl_key F (fun e => firstMatch intents (content e))).
have Hkey d : [seq firstMatch intents (content e) | e <- d]
              = [seq firstMatch intents u
                | u <- [seq map upperUnit (content e) | e <- d]].
  rewrite -map_comp; apply: eq_map => e; rewrite /comp.
  apply: firstMatch_folded; rewrite -map_comp; apply: eq_map => c.
  by rewrite /comp upperUnit_idem.
by rewrite !Hkey E.
Qed.

Lemma classifyIntents_letter_case_witness :
  classifyIntents [:: asking (js "HELLO"); asking (js "铜Price")]
  = classifyIntents [:: asking (js "hello"); asking (js "铜pRICE")].
Proof. by apply: classifyIntents_letter_case. Defined.

(** ** The insight service: cleaning the answer *)

Lemma removeAll_skip pat k s :
  removeAll pat k s = removeAll pat 0 (drop k s).
Proof. by elim: s k => [|c s IH] [|k] //=. Qed.

Lemma removeAll_cons pat c s :
  removeAll pat 0 (c :: s)
  = if startsWith (c :: s) pat then removeAll pat 0 (drop (size pat).-1 s)
    else c :: removeAll pat 0 s.
Proof. by rewrite [LHS]/= -removeAll_skip. Qed.

Lemma removeAll_subseq pat k s : subseq (removeAll pat k s) s.
Proof.
elim: s k => [|c s IH] k; first by case: k.
case: k => [|k]; last first.
  exact: subseq_trans (IH k) (subseq_cons s c).
rewrite removeAll_cons; case: (startsWith _ _).
  rewrite -removeAll_skip.
  exact: subseq_trans (IH _) (subseq_cons s c).
by rewrite /= eqxx.
Qed.

Lemma removeAll_absent pat s :
  ~~ includes s pat -> removeAll pat 0 s = s.
Proof.
elim: s => [|c s IH] //; rewrite includes_cons negb_or => /andP [Hst /IH Hs].
by rewrite removeAll_cons (negbTE Hst) Hs.
Qed.

Lemma startsWith_run (c : N) k : k < 4 -> startsWith [:: c; c; c] (nseq k c).
Proof. by case: k => [|[|[|[|k]]]] //= _; rewrite !eqxx. Qed.

(** After the removal of a run of three, no run of three is left, and
    what is left does not start with more of the character than the text
    did. *)
Lemma removeAll_run (c : N) n s :
  size s <= n ->
  ~~ includes (removeAll [:: c; c; c] 0 s) [:: c; c; c]
  /\ forall k, k < 3 -> startsWith (removeAll [:: c; c; c] 0 s) (nseq k c) ->
                 startsWith s (nseq k c).
Proof.
elim: n s => [|n IH] s; first by rewrite leqn0 size_eq0 => /eqP ->.
case: s => [|x s] // Hsz; rewrite removeAll_cons.
case Hst: (startsWith (x :: s) [:: c; c; c]).
  case/startsWithP: Hst => t Et; case: Et Hsz => -> -> /= Hsz.
  rewrite drop0; have [Hfree _] := IH t (leq_trans (leqnSn _) (ltnW Hsz)).
  split=> // k Hk _.
  exact: (startsWith_cat (s := [:: c; c; c]) t (startsWith_run c (ltnW Hk))).
have [Hfree Hlead] := IH s Hsz; split.
  rewrite includes_cons negb_or Hfree andbT.
  have Hcons y u k : startsWith (y :: u) (nseq k.+1 c)
                     = (c == y) && startsWith u (nseq k c) by [].
  rewrite (Hcons x _ 2); apply/negP => /andP [Ex /(Hlead 2 isT) H2].
  by move: Hst; rewrite (Hcons x s 2) Ex H2.
case=> [|k] // Hk.
have Hcons y u : startsWith (y :: u) (nseq k.+1 c)
                 = (c == y) && startsWith u (nseq k c) by [].
by rewrite !Hcons => /andP [-> /(Hlead k (ltnW Hk)) ->].
Qed.

Lemma cleanup_no_fence text : ~~ includes (cleanup text) FENCE.
Proof. by have [] := removeAll_run 96%num (leqnn (size (removeAll FENCE_HTML 0 text))). Qed.

(** X14.  Whatever the answer, the cleaned text holds no [```], it is the
    answer with characters left out, and an answer without [```] is left
    as it is. *)
Theorem cleanup_spec (text : jsstring) :
  [/\ ~~ includes (cleanup text) FENCE,
      subseq (cleanup text) text
    & ~~ includes text FENCE ==> (cleanup text == text)].
Proof.
split; first exact: cleanup_no_fence.
  exact: subseq_trans (removeAll_subseq _ _ _) (removeAll_subseq _ _ _).
apply/implyP => Hno; rewrite /cleanup.
have Hhtml : ~~ includes text FENCE_HTML.
  apply: contra Hno => H; apply: includes_trans H _.
  by vm_compute.
by rewrite (removeAll_absent Hhtml) (removeAll_absent Hno).
Qed.

(** ** The insight service: the sample and the result *)

Lemma interestingLogs_sampled logs :
  interestingLogs logs
  = join [:: LF]
         [seq js "- [" ++ (if p.1 is [::] then js "User" else p.1)
              ++ js "] asked: " ++ QUOTE :: p.2 ++ [:: QUOTE]
         | p <- sampled logs].
Proof. by rewrite /interestingLogs /sampled -map_comp. Qed.

(** X15.  The result of [analyzeUserIntent] depends on the logs only through
    the company and the content of the first 150 records whose content is
    longer than five code units: later records and all other fields are
    not sent to the service. *)
Theorem analyzeUserIntent_sample
    (API_KEY : option jsstring)
    (GoogleGenAI : jsstring -> jsstring -> jsstring -> reply)
    (logs logs' : seq SmmLogEntry) :
  sampled logs = sampled logs' ->
  analyzeUserIntent API_KEY GoogleGenAI logs
  = analyzeUserIntent API_KEY GoogleGenAI logs'.
Proof.
by move=> E; rewrite /analyzeUserIntent /prompt !interestingLogs_sampled E.
Qed.

Lemma analyzeUserIntent_sample_witness :
  analyzeUserIntent (Some (js "key")) fencing sampleOne
  = analyzeUserIntent (Some (js "key")) fencing sampleTwo.
Proof. by apply: analyzeUserIntent_sample; vm_compute. Defined.

Lemma analyzeUserIntent_clean API_KEY GoogleGenAI logs :
  ~~ includes (analyzeUserIntent API_KEY GoogleGenAI logs) FENCE.
Proof.
rewrite /analyzeUserIntent /getGeminiClient.
case: API_KEY => [[|c k]|]; try by vm_compute.
case: (GoogleGenAI _ _ _) => [text|]; last by vm_compute.
exact: cleanup_no_fence.
Qed.

(** X16.  Whatever the key, the service and the logs, the text that
    [analyzeUserIntent] returns holds no [```]; without a key it is the
    notice of the missing key and the service is not asked. *)
Theorem analyzeUserIntent_no_fence
    (API_KEY : option jsstring)
    (GoogleGenAI : jsstring -> jsstring -> jsstring -> reply)
    (logs : seq SmmLogEntry) :
  ~~ includes (analyzeUserIntent API_KEY GoogleGenAI logs) FENCE
  /\ (~~ (if API_KEY is Some (_ :: _) then true else false)
      ==> (analyzeUserIntent API_KEY GoogleGenAI logs == KEY_MISSING)).
Proof.
split; first exact: analyzeUserIntent_clean.
by rewrite /analyzeUserIntent /getGeminiClient; case: API_KEY => [[|c k]|].
Qed.

(** ** The application *)

Lemma handleFileUpload_safe API_KEY GoogleGenAI rows st :
  datesSafe (parseCSV rows) ->
  exists2 s, getSummaryStats (parseCSV rows) = Returns s
  & App.handleFileUpload API_KEY GoogleGenAI (App.Rows rows) st
    = (App.triggerAiAnalysis API_KEY GoogleGenAI (parseCSV rows)
         (App.mkState (parseCSV rows) (Some s)
            [seq trendOf (parseCSV rows) d | d <- datesOf (parseCSV rows)]
            (getHourlyStats (parseCSV rows))
            (getSourceDistribution (parseCSV rows))
            (classifyIntents (parseCSV rows))
            (getMetalDistribution (parseCSV rows))
            (getTopCompanies (parseCSV rows))
            (getUserTypeDistribution (parseCSV rows))
            (getTopKeywords (parseCSV rows))
            (App.aiAnalysis st) (App.loadingAi st)),
       [::]).
Proof.
move=> Hs; have [s [Es _ _ _ _]] := getSummaryStats_own_dates Hs.
have [Et _ _ _] := getDailyTrend_own_dates Hs.
exists s; first exact: Es.
by rewrite /App.handleFileUpload Es Et; case: st.
Qed.

Lemma handleFileUpload_unsafe API_KEY GoogleGenAI rows st :
  ~~ datesSafe (parseCSV rows) ->
  App.handleFileUpload API_KEY GoogleGenAI (App.Rows rows) st
  = (App.setData (parseCSV rows) st, [:: App.PARSE_ALERT]).
Proof.
by move=> Hs; rewrite /App.handleFileUpload (getSummaryStats_throws Hs).
Qed.

(** X17.  An upload either replaces the records, the summary and the nine
    views together, all computed from the same parsed records, and shows
    no alert; or, when a parsed record has a date part that names an
    inherited member, it replaces the records only, keeps the summary and
    the views of the earlier file, starts no analysis and shows the
    alert. *)
Theorem handleFileUpload_rows
    (API_KEY : option jsstring)
    (GoogleGenAI : jsstring -> jsstring -> jsstring -> reply)
    (rows : seq rawRow) (st : App.state) :
  let parsedData := parseCSV rows in
  if datesSafe parsedData then
    exists2 s, getSummaryStats parsedData = Returns s
    & App.handleFileUpload API_KEY GoogleGenAI (App.Rows rows) st
      = (App.triggerAiAnalysis API_KEY GoogleGenAI parsedData
           (App.mkState parsedData (Some s)
              [seq trendOf parsedData d | d <- datesOf parsedData]
              (getHourlyStats parsedData)
              (getSourceDistribution parsedData)
              (classifyIntents parsedData)
              (getMetalDistribution parsedData)
              (getTopCompanies parsedData)
              (getUserTypeDistribution parsedData)
              (getTopKeywords parsedData)
              (App.aiAnalysis st) (App.loadingAi st)),
         [::])
  else App.handleFileUpload API_KEY GoogleGenAI (App.Rows rows) st
       = (App.setData parsedData st, [:: App.PARSE_ALERT]).
Proof.
move=> parsedData; case Hs: (datesSafe parsedData).
  exact: handleFileUpload_safe.
by apply: handleFileUpload_unsafe; rewrite -/parsedData Hs.
Qed.

(** X18.  A file without a valid row replaces the dashboard by an empty one
    without an alert: the summary shows zeros and [N/A]; the service is
    not asked, and the text of the earlier analysis stays on the page. *)
Theorem handleFileUpload_no_valid_row
    (API_KEY : option jsstring)
    (GoogleGenAI : jsstring -> jsstring -> jsstring -> reply)
    (rows : seq rawRow) (st : App.state) :
  parseCSV rows = [::] ->
  App.handleFileUpload API_KEY GoogleGenAI (App.Rows rows) st
  = (App.mkState [::] (Some (mkSummary 0 0 0%float 0%float NA NA)) [::]
       (getHourlyStats [::]) [::] (classifyIntents [::]) [::] [::] [::] [::]
       (App.aiAnalysis st) (App.loadingAi st),
     [::]).
Proof.
move=> E; have Hs : datesSafe (parseCSV rows) by rewrite E.
have [s Es ->] := handleFileUpload_safe API_KEY GoogleGenAI st Hs.
move: Es; rewrite E getSummaryStats_empty => [[<-]].
by [].
Qed.

Lemma handleFileUpload_no_valid_row_witness :
  App.handleFileUpload (Some (js "key")) fencing (App.Rows [:: blankRow])
                       analysed
  = (App.mkState [::] (Some (mkSummary 0 0 0%float 0%float NA NA)) [::]
       (getHourlyStats [::]) [::] (classifyIntents [::]) [::] [::] [::] [::]
       (js "<p>old</p>") false,
     [::]).
Proof. by apply: handleFileUpload_no_valid_row. Defined.

(** X19.  After an upload with at least one valid row and no inherited date
    name, once the analysis has settled, the page is not loading and
    shows what [analyzeUserIntent] returned for the parsed records, a
    text without [```]. *)
Theorem handleFileUpload_analysis
    (API_KEY : option jsstring)
    (GoogleGenAI : jsstring -> jsstring -> jsstring -> reply)
    (rows : seq rawRow) (st : App.state) :
  datesSafe (parseCSV rows) -> parseCSV rows != [::] ->
  let st' := (App.handleFileUpload API_KEY GoogleGenAI (App.Rows rows) st).1 in
  [/\ App.loadingAi st' = false,
      App.aiAnalysis st'
      = analyzeUserIntent API_KEY GoogleGenAI (parseCSV rows)
    & ~~ includes (App.aiAnalysis st') FENCE].
Proof.
move=> Hs Hne.
have [s _ ->] := handleFileUpload_safe API_KEY GoogleGenAI st Hs.
rewrite /App.triggerAiAnalysis; case: (parseCSV rows) Hne => [|e d] // _ /=.
by split=> //; apply: analyzeUserIntent_clean.
Qed.

Lemma handleFileUpload_analysis_witness :
  App.aiAnalysis
    (App.handleFileUpload (Some (js "key")) fencing (App.Rows [:: goodRow])
                          analysed).1
  = js "<p>ok</p>".
Proof.
have [_ -> _] := handleFileUpload_analysis (Some (js "key")) fencing analysed
                   (rows := [:: goodRow]) isT isT.
by vm_compute.
Defined.

(** ** The charts *)

Lemma classifyIntentsE data :
  classifyIntents data
  = [seq (l, Num (count (fun e => intentOf e == l) data)) | l <- intentLabels].
Proof.
rewrite /classifyIntents.
have Hstep : (fun counts entry =>
                if firstMatch intents (content entry) is Some key
                then increment counts key else increment counts OTHER)
             =2 (fun counts e => increment counts (intentOf e)).
  by move=> c e; rewrite /intentOf; case: (firstMatch _ _).
rewrite (foldl_ext _ _ Hstep).
have -> : [:: (js "闲聊/问候", Num 0); (js "行情/价格", Num 0);
              (js "趋势/预测", Num 0); (js "数据/库存", Num 0);
              (js "知识/百科", Num 0); (OTHER, Num 0)]
          = table intentLabels (fun=> Num 0) by [].
have Hu : uniq intentLabels by [].
rewrite (tally_fixed _ Hu intentOf_label).
by rewrite entries_table keyOrder_plain.
Qed.

(** X20.  The intent pie has six cells whose fills are the first six
    colours of the palette, so no two intents share a colour. *)
Theorem intentCells_distinct (data : seq SmmLogEntry) :
  intentCells (classifyIntents data) = [seq Some c | c <- take 6 COLORS]
  /\ uniq (intentCells (classifyIntents data)).
Proof.
have E : intentCells (classifyIntents data) = [seq Some c | c <- take 6 COLORS].
  by rewrite /intentCells classifyIntentsE size_map.
by rewrite E.
Qed.

Lemma getTopKeywords_descending data :
  sorted (fun a b : KeywordFrequency => countOf b.2 <= countOf a.2)
         (getTopKeywords data).
Proof.
have /andP [Hu _] := vocabulary_keywords.
rewrite getTopKeywordsE; apply: sub_sorted (sort_occurring_ranked data Hu).
move=> a b /orP [/ltnW //|/andP [/eqP -> _]].
exact: leqnn.
Qed.

(** X21.  The keyword cloud shows at most 25 keywords, and no keyword that
    it leaves out has a greater count than one that it shows. *)
Theorem keywordCloud_top (data : seq SmmLogEntry) :
  size (keywordCloud (getTopKeywords data)) <= 25
  /\ allrel (fun shown hidden : KeywordFrequency =>
               countOf hidden.2 <= countOf shown.2)
            (keywordCloud (getTopKeywords data))
            (drop 25 (getTopKeywords data)).
Proof.
split.
  by rewrite /keywordCloud size_take; case: ltnP.
have Htr : transitive (fun a b : KeywordFrequency =>
                          countOf b.2 <= countOf a.2).
  by move=> b a c Hab Hbc; apply: leq_trans Hbc Hab.
have := getTopKeywords_descending data.
rewrite (sorted_pairwise Htr).
rewrite -{1}(cat_take_drop 25 (getTopKeywords data)) pairwise_cat.
by case/and3P.
Qed.

(** ** The order of the records *)

Section Reordered.

Variables data data' : seq SmmLogEntry.
Hypothesis Hperm : perm_eq data data'.

Lemma count_reordered (p : pred SmmLogEntry) : count p data = count p data'.
Proof. exact: (permP Hperm). Qed.

Lemma datesOf_reordered : datesOf data = datesOf data'.
Proof.
apply/(perm_sortP strLeq_total strLeq_trans strLeq_anti).
apply: perm_undup; apply: perm_mem; apply: perm_map.
exact: perm_filter.
Qed.

Lemma retentionDates_reordered : retentionDates data = retentionDates data'.
Proof.
apply/(perm_sortP strLeq_total strLeq_trans strLeq_anti).
by apply: perm_undup; apply: perm_mem; apply: perm_map.
Qed.

Lemma trendOf_reordered d : trendOf data d = trendOf data' d.
Proof.
rewrite /trendOf count_reordered; congr (mkTrend _ _ _).
apply: perm_size; apply: perm_undup; apply: perm_mem; apply: perm_map.
exact: perm_filter.
Qed.

Lemma dayUsers_reordered d : perm_eq (dayUsers data d) (dayUsers data' d).
Proof.
apply: uniq_perm; rewrite ?uniq_setOf // => u; rewrite !mem_setOf.
by apply: perm_mem; apply: perm_map; apply: perm_filter.
Qed.

Lemma ratios_reordered ds :
  ratios [seq dayUsers data d | d <- ds]
  = ratios [seq dayUsers data' d | d <- ds].
Proof.
elim: ds => [|d1 [|d2 ds] IH] //.
rewrite 2!map_cons !ratios_step -!map_cons IH.
rewrite (perm_size (dayUsers_reordered d1)).
rewrite (permP (dayUsers_reordered d1)).
have -> : count (fun uid => uid \in dayUsers data d2) (dayUsers data' d1)
          = count (fun uid => uid \in dayUsers data' d2) (dayUsers data' d1).
  by apply: eq_count => u; apply: perm_mem; apply: dayUsers_reordered.
by [].
Qed.

Lemma getDailyTrend_reordered : getDailyTrend data = getDailyTrend data'.
Proof.
rewrite !getDailyTrendE (perm_has _ Hperm) datesOf_reordered.
case: (has _ _) => //; congr Returns; apply: eq_map => d.
exact: trendOf_reordered.
Qed.

Lemma calculateRetention_reordered :
  calculateRetention data = calculateRetention data'.
Proof.
have Hall : datesSafe data = datesSafe data' by apply: perm_all.
case Hs: (datesSafe data); last first.
  by rewrite !calculateRetention_throws -?Hall ?Hs.
rewrite !calculateRetention_own_dates -?Hall ?Hs //.
by rewrite retentionDates_reordered ratios_reordered.
Qed.

Lemma getHourlyStats_reordered : getHourlyStats data = getHourlyStats data'.
Proof.
rewrite /getHourlyStats !hourly_fold; congr (map _ (zip _ _)).
by apply: eq_mkseq => h; apply: count_reordered.
Qed.

Lemma classifyIntents_reordered : classifyIntents data = classifyIntents data'.
Proof.
by rewrite !classifyIntentsE; apply: eq_map => l; rewrite count_reordered.
Qed.

Lemma getUserTypeDistribution_reordered :
  getUserTypeDistribution data = getUserTypeDistribution data'.
Proof.
by rewrite /getUserTypeDistribution !userType_fold !count_reordered.
Qed.

End Reordered.

(** X22.  The daily trend, the hourly counts, the intent counts, the user
    types and the retention rate do not depend on the order of the
    records. *)
Theorem views_reordered (data data' : seq SmmLogEntry) :
  perm_eq data data' ->
  [/\ getDailyTrend data = getDailyTrend data',
      getHourlyStats data = getHourlyStats data',
      classifyIntents data = classifyIntents data',
      getUserTypeDistribution data = getUserTypeDistribution data'
    & calculateRetention data = calculateRetention data'].
Proof.
move=> Hperm; split.
- exact: getDailyTrend_reordered.
- exact: getHourlyStats_reordered.
- exact: classifyIntents_reordered.
- exact: getUserTypeDistribution_reordered.
- exact: calculateRetention_reordered.
Qed.

Lemma views_reordered_witness :
  getDailyTrend twoDays = getDailyTrend (rev twoDays)
  /\ calculateRetention twoDays = calculateRetention (rev twoDays).
Proof.
have Hperm : perm_eq twoDays (rev twoDays) by rewrite perm_sym perm_rev.
have [H1 _ _ _ H5] := views_reordered Hperm.
exact: (conj H1 H5).
Defined.

(** ** Hours of timestamps of the usual shape *)

Lemma getHourlyStatsE data :
  getHourlyStats data
  = [seq mkHourly (decimal h ++ js ":00")
                  (count (fun e => hourOf e == Some h) data)
    | h <- iota 0 24].
Proof.
rewrite /getHourlyStats hourly_fold size_mkseq /mkseq.
by rewrite -{2}(map_id (iota 0 24)) zip_map -map_comp.
Qed.

Lemma sum_hourly data :
  sumn [seq count_ s | s <- getHourlyStats data]
  = count (fun e => isSome (hourOf e)) data.
Proof.
rewrite getHourlyStatsE -map_comp.
have -> : [seq (count_ \o (fun h => mkHourly (decimal h ++ js ":00")
                    (count (fun e => hourOf e == Some h) data))) h
          | h <- iota 0 24]
        = [seq count (fun e => hourOf e == k) data
          | k <- [seq Some h | h <- iota 0 24]] by rewrite -map_comp.
have Hu : uniq [seq Some h | h <- iota 0 24].
  by rewrite map_inj_uniq ?iota_uniq // => x y [].
rewrite (sum_counts _ _ Hu).
apply: eq_count => e; case E: (hourOf e) => [h|]; last by [].
by rewrite mem_map ?mem_iota ?(hourOf_lt24 E) // => x y [].
Qed.

Lemma split_first c s :
  split c s
  = beforeFirst c s :: (if afterFirst c s is Some t then split c t else [::]).
Proof. by elim: s => [|x s IH] //=; case: (x == c) => //=; rewrite IH. Qed.

Lemma hourOf_after e :
  hourOf e = if afterFirst SPACE (time e) is Some u
             then hourFrom (beforeFirst SPACE u) else None.
Proof.
rewrite hourOfE split_first; case: (afterFirst _ _) => [u|] //.
by rewrite split_first.
Qed.

Lemma digit_cases c : isDigit c -> c \in digits.
Proof.
rewrite /isDigit => /andP [/N.leb_le H1 /N.leb_le H2].
rewrite -(N2Nat.id c).
have Hlo : 48 <= N.to_nat c by apply/leP; lia.
have Hup : N.to_nat c < 58 by apply/ltP; lia.
have Hhi : N.to_nat c - 48 < 10 by rewrite ltn_subLR.
rewrite -(subnKC Hlo); move: (_ - 48) Hhi => k.
by do 10![case: k => [|k] //].
Qed.

Lemma hourFrom_digits h1 h2 r :
  isDigit h1 -> isDigit h2 ->
  hourFrom (beforeFirst SPACE (h1 :: h2 :: COLON :: r))
  = if (N.to_nat h1 - 48) * 10 + (N.to_nat h2 - 48) < 24
    then Some ((N.to_nat h1 - 48) * 10 + (N.to_nat h2 - 48)) else None.
Proof.
move=> /digit_cases H1 /digit_cases H2.
have : all (fun a => all (fun b =>
          hourFrom (beforeFirst SPACE (a :: b :: COLON :: r))
          == if (N.to_nat a - 48) * 10 + (N.to_nat b - 48) < 24
             then Some ((N.to_nat a - 48) * 10 + (N.to_nat b - 48))
             else None) digits) digits by vm_compute.
by move=> /allP /(_ h1 H1) /allP /(_ h2 H2) /eqP.
Qed.

Lemma stampHour_hourOf e h : stampHour (time e) = Some h -> hourOf e = Some h.
Proof.
rewrite /stampHour hourOf_after.
case: (afterFirst _ _) => [[|h1 [|h2 [|c r]]]|] //.
case: and4P => // [[D1 D2 /eqP -> Hh]] [<-].
by rewrite hourFrom_digits // Hh.
Qed.

(** X23.  A record whose time has two digits that make a number below 24,
    followed by a colon, right after its first space is counted under
    that hour; when every record has such a time, the hourly counts add up
    to the number of records. *)
Theorem getHourlyStats_stamped (data : seq SmmLogEntry) :
  all (fun e => isSome (stampHour (time e))) data ->
  getHourlyStats data
  = [seq mkHourly (decimal h ++ js ":00")
                  (count (fun e => stampHour (time e) == Some h) data)
    | h <- iota 0 24]
  /\ sumn [seq count_ s | s <- getHourlyStats data] = size data.
Proof.
move=> Hall.
have Hsame e : e \in data -> hourOf e = stampHour (time e).
  move=> /(allP Hall); case E: (stampHour _) => [h|] // _.
  exact: stampHour_hourOf.
split.
  rewrite getHourlyStatsE; apply: eq_map => h; congr mkHourly.
  by apply: eq_in_count => e /Hsame ->.
rewrite sum_hourly -(count_predT data); apply: eq_in_count => e He.
by rewrite (Hsame e He); apply: (allP Hall).
Qed.

Lemma getHourlyStats_stamped_witness :
  sumn [seq count_ s | s <- getHourlyStats twoDays] = size twoDays.
Proof. by have [] := getHourlyStats_stamped (data := twoDays) isT. Defined.

(** ** What an upload leaves of the earlier state *)

(** X24.  After an upload with at least one valid row and no inherited
    date name nothing of the earlier state is left: the resulting state
    and alerts are the same from every state. *)
Theorem handleFileUpload_replaces
    (API_KEY : option jsstring)
    (GoogleGenAI : jsstring -> jsstring -> jsstring -> reply)
    (rows : seq rawRow) (st st' : App.state) :
  datesSafe (parseCSV rows) -> parseCSV rows != [::] ->
  App.handleFileUpload API_KEY GoogleGenAI (App.Rows rows) st
  = App.handleFileUpload API_KEY GoogleGenAI (App.Rows rows) st'.
Proof.
move=> Hs Hne.
have [s Es ->] := handleFileUpload_safe API_KEY GoogleGenAI st Hs.
have [s' Es' ->] := handleFileUpload_safe API_KEY GoogleGenAI st' Hs.
have -> : s' = s by move: Es'; rewrite Es => [[]].
by rewrite /App.triggerAiAnalysis; case: (parseCSV rows) Hne.
Qed.

Lemma handleFileUpload_replaces_witness :
  App.handleFileUpload (Some (js "key")) fencing (App.Rows [:: goodRow])
                       analysed
  = App.handleFileUpload (Some (js "key")) fencing (App.Rows [:: goodRow])
                         App.initial.
Proof. exact: handleFileUpload_replaces. Defined.
